(** * reproc, Windows backend: [src/windows/process.c]

    A shallow embedding of the process-lifecycle functions of
    [process.c] ([process_init], [process_start], [process_wait],
    [process_terminate], [process_kill], [process_free],
    [process_system_error]) over an executable model of the part of the
    Win32 API they call.

    The C functions mutate a [process] record through a pointer and talk to
    the operating system; here they are computations in a small monad [M]
    that threads a [world] (the parent's handle table, the child processes,
    the thread's last-error register, a clock and the log of API calls) and
    that can also stop in [Aborted] (a failed [assert]) or [Blocked] (a wait
    that never ends).  A [process *] argument is represented by the record
    it points to, and the updated record is returned with the result; so
    [assert(process)] and [assert(argv)] hold by construction and have no
    counterpart here.  [process_write_stdin], [process_read_stdout] and
    [process_read_stderr] only forward to [pipe_write] and [pipe_read] of
    [util.c] and are left out. *)

From stdpp Require Import gmap strings list.

Open Scope Z_scope.

(** ** Win32 scalar types and constants ([windows.h]) *)

Abbreviation HANDLE := Z (only parsing).
Abbreviation DWORD := Z (only parsing).

Definition NULL : HANDLE := 0.

Definition ERROR_SUCCESS : DWORD := 0.
Definition ERROR_ACCESS_DENIED : DWORD := 5.
Definition ERROR_INVALID_HANDLE : DWORD := 6.
Definition ERROR_INVALID_PARAMETER : DWORD := 87.

Definition WAIT_OBJECT_0 : DWORD := 0.
Definition WAIT_ABANDONED : DWORD := 0x80.
Definition WAIT_TIMEOUT : DWORD := 0x102.
Definition WAIT_FAILED : DWORD := 0xFFFFFFFF.
Definition INFINITE : DWORD := 0xFFFFFFFF.

Definition CTRL_BREAK_EVENT : DWORD := 1.
Definition CREATE_NEW_PROCESS_GROUP : DWORD := 0x200.
Definition STARTF_USESTDHANDLES : DWORD := 0x100.

Record PROCESS_INFORMATION := {
  hProcess : HANDLE;
  hThread : HANDLE;
  dwProcessId : DWORD;
  dwThreadId : DWORD
}.

(** The fields of [STARTUPINFOW] that [process.c] sets to something else than
    zero, [cb] apart. *)
Record STARTUPINFOW := {
  dwFlags : DWORD;
  hStdInput : HANDLE;
  hStdOutput : HANDLE;
  hStdError : HANDLE
}.

(** ** The portable error kinds ([process.h]) *)

(** Modelled from the spec: the enumeration [PROCESS_ERROR] is declared in
    [process.h], which is not part of the sources at hand.  [process.c] names
    [PROCESS_SUCCESS] and [PROCESS_WAIT_TIMEOUT]; the other kinds are the ones
    of the portable error taxonomy.  The raw platform value that accompanies
    an unknown error is not stored in the enumeration: it is read back with
    [process_system_error]. *)
Inductive PROCESS_ERROR :=
| PROCESS_SUCCESS
| PROCESS_WAIT_TIMEOUT
| PROCESS_PIPE_CREATION_FAILED
| PROCESS_PROCESS_CREATION_FAILED
| PROCESS_INVALID_HANDLE
| PROCESS_IO_FAILED
| PROCESS_UNKNOWN_ERROR.

#[global] Instance PROCESS_ERROR_eq_dec : EqDecision PROCESS_ERROR.
Proof. solve_decision. Defined.

(** ** [struct process] *)

Record process := {
  stdin : HANDLE;
  stdout : HANDLE;
  stderr : HANDLE;
  child_stdin : HANDLE;
  child_stdout : HANDLE;
  child_stderr : HANDLE;
  info : PROCESS_INFORMATION
}.

Definition set_info (i : PROCESS_INFORMATION) (p : process) : process :=
  {| stdin := stdin p; stdout := stdout p; stderr := stderr p;
     child_stdin := child_stdin p; child_stdout := child_stdout p;
     child_stderr := child_stderr p; info := i |}.

(** ** The operating system *)

Inductive pipe_end := ReadEnd | WriteEnd.

#[global] Instance pipe_end_eq_dec : EqDecision pipe_end.
Proof. solve_decision. Defined.

(** What a handle of the parent refers to. *)
Inductive kobject :=
| PipeEnd (e : pipe_end)
| ProcessObj (pid : DWORD)
| ThreadObj (pid : DWORD).

Record hentry := { object : kobject; inheritable : bool }.

(** A child process: its console process group, the time at which it will
    have exited ([None]: it runs for ever), and how long it takes to exit
    once it receives CTRL-BREAK ([None]: it ignores the signal). *)
Record child := {
  group : DWORD;
  exit_time : option Z;
  break_delay : option Z
}.

Definition exited (c : child) (t : Z) : bool :=
  match exit_time c with
  | Some t0 => bool_decide (t0 ≤ t)
  | None => false
  end.

(** The program an executable turns out to be, as far as the parent can
    tell: how long it runs by itself and how it reacts to CTRL-BREAK. *)
Record behaviour := {
  lifetime : option Z;
  on_break : option Z
}.

(** The calls the program makes, in the order it makes them. *)
Inductive event :=
| ev_SetLastError (e : DWORD)
| ev_GetLastError (e : DWORD)
| ev_CreatePipe (ok : bool)
| ev_CreateProcessW (cmd : list Z) (flags : DWORD) (si : STARTUPINFOW) (ok : bool)
| ev_free
| ev_CloseHandle (h : HANDLE) (ok : bool)
| ev_WaitForSingleObject (h : HANDLE) (ms : DWORD) (r : DWORD)
| ev_GenerateConsoleCtrlEvent (ctrl : DWORD) (grp : DWORD) (ok : bool)
| ev_TerminateProcess (h : HANDLE) (ok : bool).

#[global] Instance STARTUPINFOW_eq_dec : EqDecision STARTUPINFOW.
Proof. solve_decision. Defined.
#[global] Instance event_eq_dec : EqDecision event.
Proof. solve_decision. Defined.

(** What the system decides by itself.  Entry [0] of each sequence is the
    fate of the next call of that kind; a call consumes its entry.  A call
    that the system refuses leaves a non-zero code in the last-error
    register, hence [positive]. *)
Record world := {
  handles : gmap Z hentry;          (* open handles of the parent *)
  children : gmap Z child;          (* child processes, by process id *)
  last_error : DWORD;               (* the thread's last-error register *)
  now : Z;                          (* milliseconds elapsed *)
  trace : list event;               (* oldest call first *)
  pipe_fate : nat → option positive;       (* [Some e]: no pipe, error [e] *)
  spawn_fate : nat → positive + behaviour; (* [inl e]: no process, error [e] *)
  signal_fate : nat → option positive      (* [Some e]: no signal, error [e] *)
}.

Definition set_handles (f : gmap Z hentry → gmap Z hentry) (w : world) : world :=
  {| handles := f (handles w); children := children w;
     last_error := last_error w; now := now w; trace := trace w;
     pipe_fate := pipe_fate w; spawn_fate := spawn_fate w;
     signal_fate := signal_fate w |}.

Definition set_children (f : gmap Z child → gmap Z child) (w : world) : world :=
  {| handles := handles w; children := f (children w);
     last_error := last_error w; now := now w; trace := trace w;
     pipe_fate := pipe_fate w; spawn_fate := spawn_fate w;
     signal_fate := signal_fate w |}.

Definition set_last_error (e : DWORD) (w : world) : world :=
  {| handles := handles w; children := children w;
     last_error := e; now := now w; trace := trace w;
     pipe_fate := pipe_fate w; spawn_fate := spawn_fate w;
     signal_fate := signal_fate w |}.

Definition set_now (t : Z) (w : world) : world :=
  {| handles := handles w; children := children w;
     last_error := last_error w; now := t; trace := trace w;
     pipe_fate := pipe_fate w; spawn_fate := spawn_fate w;
     signal_fate := signal_fate w |}.

Definition log (e : event) (w : world) : world :=
  {| handles := handles w; children := children w;
     last_error := last_error w; now := now w; trace := trace w ++ [e];
     pipe_fate := pipe_fate w; spawn_fate := spawn_fate w;
     signal_fate := signal_fate w |}.

Definition next_pipe (w : world) : world :=
  {| handles := handles w; children := children w;
     last_error := last_error w; now := now w; trace := trace w;
     pipe_fate := λ n, pipe_fate w (S n); spawn_fate := spawn_fate w;
     signal_fate := signal_fate w |}.

Definition next_spawn (w : world) : world :=
  {| handles := handles w; children := children w;
     last_error := last_error w; now := now w; trace := trace w;
     pipe_fate := pipe_fate w; spawn_fate := λ n, spawn_fate w (S n);
     signal_fate := signal_fate w |}.

Definition next_signal (w : world) : world :=
  {| handles := handles w; children := children w;
     last_error := last_error w; now := now w; trace := trace w;
     pipe_fate := pipe_fate w; spawn_fate := spawn_fate w;
     signal_fate := λ n, signal_fate w (S n) |}.

(** A value that no key of [m] has, and that is not [NULL]. *)
Definition fresh_key {A} (m : gmap Z A) : Z :=
  4 + foldr Z.max 0 (map_to_list m).*1.
Arguments fresh_key : simpl never.

(** ** The monad of the embedding *)

Inductive outcome (A : Type) :=
| Returned (a : A) (w : world)   (* the call returned [a] *)
| Aborted (w : world)            (* an [assert] failed *)
| Blocked (w : world).           (* the call never returns *)
Arguments Returned {A} a w.
Arguments Aborted {A} w.
Arguments Blocked {A} w.

Definition M (A : Type) : Type := world → outcome A.

#[global] Instance M_ret : MRet M := λ A a w, Returned a w.

#[global] Instance M_bind : MBind M := λ A B k m w,
  match m w with
  | Returned a w' => k a w'
  | Aborted w' => Aborted w'
  | Blocked w' => Blocked w'
  end.


(** ** The Win32 calls of [process.c]

    Two conventions of the API are built in: a call that fails stores a
    non-zero code in the last-error register, and a call that succeeds
    leaves the register as it found it. *)

Definition SetLastError (e : DWORD) : M unit := λ w,
  Returned tt (log (ev_SetLastError e) (set_last_error e w)).

Definition GetLastError : M DWORD := λ w,
  Returned (last_error w) (log (ev_GetLastError (last_error w)) w).

(** [CloseHandle] closes an open handle; on anything else ([NULL], a value
    that was never a handle, a handle closed before) it fails with
    [ERROR_INVALID_HANDLE]. *)
Definition CloseHandle (h : HANDLE) : M bool := λ w,
  match handles w !! h with
  | Some _ =>
      Returned true (log (ev_CloseHandle h true) (set_handles (delete h) w))
  | None =>
      Returned false
        (log (ev_CloseHandle h false) (set_last_error ERROR_INVALID_HANDLE w))
  end.

(** [free] of the C runtime: releases memory, the world as modelled here does
    not change. *)
Definition free : M unit := λ w, Returned tt (log ev_free w).

(** [CreateProcessW]: when the system refuses, nothing is created and
    [lpProcessInformation] is left as it was.  Otherwise a child starts (in a
    process group of its own when [CREATE_NEW_PROCESS_GROUP] is set, and then
    the group's id is the process id; in the caller's group, [0], when it is
    not) and the parent receives a handle to the process and one to its main
    thread. *)
Definition CreateProcessW (cmd : list Z) (bInheritHandles : bool)
    (dwCreationFlags : DWORD) (si : STARTUPINFOW)
    (pi : PROCESS_INFORMATION) : M (bool * PROCESS_INFORMATION) := λ w,
  match spawn_fate w 0%nat with
  | inl e =>
      Returned (false, pi)
        (log (ev_CreateProcessW cmd dwCreationFlags si false)
           (set_last_error (Z.pos e) (next_spawn w)))
  | inr b =>
      let pid := fresh_key (children w) in
      let hp := fresh_key (handles w) in
      let ht := hp + 4 in
      let c := {| group := if Z.testbit dwCreationFlags 9 then pid else 0;
                  exit_time := (λ d, now w + d) <$> lifetime b;
                  break_delay := on_break b |} in
      Returned
        (true, {| hProcess := hp; hThread := ht;
                  dwProcessId := pid; dwThreadId := pid + 2 |})
        (log (ev_CreateProcessW cmd dwCreationFlags si true)
           (set_children <[pid := c]>
              (set_handles
                 (λ m, <[ht := {| object := ThreadObj pid; inheritable := false |}]>
                         (<[hp := {| object := ProcessObj pid; inheritable := false |}]> m))
                 (next_spawn w))))
  end.

(** [WaitForSingleObject] on a process handle.  An exited process is
    signalled at once; a running one is waited for until it exits or the
    timeout elapses, whichever comes first, and a timeout of [0] only tests.
    With [INFINITE] and a child that never exits the call does not return.
    A value that is not an open process handle makes the wait fail. *)
Definition WaitForSingleObject (h : HANDLE) (ms : DWORD) : M DWORD := λ w,
  let failed :=
    Returned WAIT_FAILED
      (log (ev_WaitForSingleObject h ms WAIT_FAILED)
         (set_last_error ERROR_INVALID_HANDLE w)) in
  match handles w !! h with
  | Some {| object := ProcessObj pid |} =>
      match children w !! pid with
      | Some c =>
          if exited c (now w) then
            Returned WAIT_OBJECT_0 (log (ev_WaitForSingleObject h ms WAIT_OBJECT_0) w)
          else
            match exit_time c with
            | Some t =>
                if bool_decide (ms = INFINITE ∨ t ≤ now w + ms) then
                  Returned WAIT_OBJECT_0
                    (log (ev_WaitForSingleObject h ms WAIT_OBJECT_0) (set_now t w))
                else
                  Returned WAIT_TIMEOUT
                    (log (ev_WaitForSingleObject h ms WAIT_TIMEOUT)
                       (set_now (now w + ms) w))
            | None =>
                if bool_decide (ms = INFINITE) then Blocked w
                else
                  Returned WAIT_TIMEOUT
                    (log (ev_WaitForSingleObject h ms WAIT_TIMEOUT)
                       (set_now (now w + ms) w))
            end
      | None => failed
      end
  | _ => failed
  end.

(** What CTRL-BREAK, sent to group [g] at time [t], does to a child: a member
    of the group that reacts to the signal exits after its delay, unless it
    exits earlier anyway. *)
Definition deliver_break (g : DWORD) (t : Z) (c : child) : child :=
  if bool_decide (group c = g) then
    match break_delay c with
    | Some d =>
        {| group := group c;
           exit_time := Some (match exit_time c with
                              | Some t0 => Z.min t0 (t + d)
                              | None => t + d
                              end);
           break_delay := break_delay c |}
    | None => c
    end
  else c.

Definition group_exists (g : DWORD) (w : world) : bool :=
  bool_decide (g = 0) ||
  match children w !! g with
  | Some c => bool_decide (group c = g)
  | None => false
  end.

(** [GenerateConsoleCtrlEvent]: the signal reaches every process of the
    group, and no other.  The call fails when the system refuses it or when
    there is no such group. *)
Definition GenerateConsoleCtrlEvent (dwCtrlEvent dwProcessGroupId : DWORD)
    : M bool := λ w,
  match signal_fate w 0%nat with
  | Some e =>
      Returned false
        (log (ev_GenerateConsoleCtrlEvent dwCtrlEvent dwProcessGroupId false)
           (set_last_error (Z.pos e) (next_signal w)))
  | None =>
      if group_exists dwProcessGroupId w then
        Returned true
          (log (ev_GenerateConsoleCtrlEvent dwCtrlEvent dwProcessGroupId true)
             (set_children (fmap (deliver_break dwProcessGroupId (now w)))
                (next_signal w)))
      else
        Returned false
          (log (ev_GenerateConsoleCtrlEvent dwCtrlEvent dwProcessGroupId false)
             (set_last_error ERROR_INVALID_PARAMETER (next_signal w)))
  end.

(** [TerminateProcess] ends a running process at once; it is refused for a
    process that has exited and for a value that is not a process handle. *)
Definition TerminateProcess (h : HANDLE) (uExitCode : Z) : M bool := λ w,
  let refused e :=
    Returned false (log (ev_TerminateProcess h false) (set_last_error e w)) in
  match handles w !! h with
  | Some {| object := ProcessObj pid |} =>
      match children w !! pid with
      | Some c =>
          if exited c (now w) then refused ERROR_ACCESS_DENIED
          else
            Returned true
              (log (ev_TerminateProcess h true)
                 (set_children
                    <[pid := {| group := group c; exit_time := Some (now w);
                                break_delay := break_delay c |}]> w))
      | None => refused ERROR_INVALID_HANDLE
      end
  | _ => refused ERROR_INVALID_HANDLE
  end.

(** ** What [process.c] takes from the rest of the library *)

(** The build ([NDEBUG] removes every [assert]) and the helpers of [util.h]
    that [process.c] calls but does not define: the translation of a platform
    error code, the joining of [argv] into one command line, and its
    conversion to UTF-16. *)
Class Build := {
  NDEBUG : bool;
  system_error_to_process_error : DWORD → PROCESS_ERROR;
  string_join : list (option string) → Z → string;
  string_to_wstring : string → list Z
}.

(** The one property of the translation that [process.c] relies on when it
    clears the register, makes its calls and translates what it then finds:
    the code [0], and no other, stands for success. *)
Definition translates_success `{Build} : Prop :=
  ∀ e : DWORD, system_error_to_process_error e = PROCESS_SUCCESS ↔ e = 0.

(** Modelled from the spec: [system_error_to_process_error] is defined in
    [util.c], which is not part of the sources at hand.  This is the least
    translation that the error taxonomy allows: no error is success, an
    invalid handle is its own kind, and every other code is unknown. *)
Definition least_translation (e : DWORD) : PROCESS_ERROR :=
  if bool_decide (e = ERROR_SUCCESS) then PROCESS_SUCCESS
  else if bool_decide (e = ERROR_INVALID_HANDLE) then PROCESS_INVALID_HANDLE
  else PROCESS_UNKNOWN_ERROR.

(** Modelled from the spec: [string_join] is defined in [util.c], which is
    not part of the sources at hand; it joins the first [argc] arguments with
    single spaces. *)
Definition join_with_spaces (argv : list (option string)) (argc : Z) : string :=
  String.concat " " (omap id (take (Z.to_nat argc) argv)).

(** Modelled from the spec: [string_to_wstring] is defined in [util.c], which
    is not part of the sources at hand; on ASCII text the UTF-16 code units
    are the character codes. *)
Definition ascii_units (s : string) : list Z :=
  (λ c, Z.of_nat (Ascii.nat_of_ascii c)) <$> String.list_ascii_of_string s.

Definition debug_build : Build :=
  {| NDEBUG := false;
     system_error_to_process_error := least_translation;
     string_join := join_with_spaces;
     string_to_wstring := ascii_units |}.

Definition release_build : Build :=
  {| NDEBUG := true;
     system_error_to_process_error := least_translation;
     string_join := join_with_spaces;
     string_to_wstring := ascii_units |}.

Section process_c.
Context {B : Build}.

(** [assert(c)]: nothing under [NDEBUG]; otherwise the program aborts when
    [c] is false. *)
Definition assert (c : bool) : M unit := λ w,
  if NDEBUG then Returned tt w
  else if c then Returned tt w else Aborted w.

Definition nonnull (h : Z) : bool := negb (bool_decide (h = 0)).

(** Modelled from the spec: [pipe_init (read, write, do_not_inherit)] is
    defined in [util.c], which is not part of the sources at hand.  It
    creates one anonymous pipe and yields its read end and its write end,
    both inheritable except the one named by [do_not_inherit], which stays
    with the parent.  When the system refuses, it reports the platform error
    and stores nothing. *)
Definition pipe_init (do_not_inherit : pipe_end) : M (option (HANDLE * HANDLE)) := λ w,
  match pipe_fate w 0%nat with
  | Some e =>
      Returned None
        (log (ev_CreatePipe false) (set_last_error (Z.pos e) (next_pipe w)))
  | None =>
      let rd := fresh_key (handles w) in
      let wr := rd + 4 in
      let keeps e := bool_decide (do_not_inherit = e) in
      Returned (Some (rd, wr))
        (log (ev_CreatePipe true)
           (set_handles
              (λ m, <[wr := {| object := PipeEnd WriteEnd;
                               inheritable := negb (keeps WriteEnd) |}]>
                      (<[rd := {| object := PipeEnd ReadEnd;
                                  inheritable := negb (keeps ReadEnd) |}]> m))
              (next_pipe w)))
  end.

Definition CREATION_FLAGS : DWORD := CREATE_NEW_PROCESS_GROUP.

Definition zero_info : PROCESS_INFORMATION :=
  {| hProcess := NULL; hThread := NULL; dwProcessId := 0; dwThreadId := 0 |}.

(** The three [pipe_init] calls are joined by [&&]: a call is made only if
    the one before it succeeded. *)
Definition process_init (p : process) : M (PROCESS_ERROR * process) :=
  let p := {| stdin := NULL; stdout := NULL; stderr := NULL;
              child_stdin := NULL; child_stdout := NULL; child_stderr := NULL;
              info := zero_info |} in
  SetLastError 0;;
  p ← (r1 ← pipe_init WriteEnd;
       match r1 with
       | None => mret p
       | Some (rd, wr) =>
           let p := {| stdin := wr; stdout := stdout p; stderr := stderr p;
                       child_stdin := rd; child_stdout := child_stdout p;
                       child_stderr := child_stderr p; info := info p |} in
           r2 ← pipe_init ReadEnd;
           match r2 with
           | None => mret p
           | Some (rd, wr) =>
               let p := {| stdin := stdin p; stdout := rd; stderr := stderr p;
                           child_stdin := child_stdin p; child_stdout := wr;
                           child_stderr := child_stderr p; info := info p |} in
               r3 ← pipe_init ReadEnd;
               match r3 with
               | None => mret p
               | Some (rd, wr) =>
                   mret {| stdin := stdin p; stdout := stdout p; stderr := rd;
                           child_stdin := child_stdin p;
                           child_stdout := child_stdout p;
                           child_stderr := wr; info := info p |}
               end
           end
       end);
  e ← GetLastError;
  let error := system_error_to_process_error e in
  mret (error, p).

(** [argv[i]]; what lies beyond the array as given reads as [NULL]. *)
Definition arg (argv : list (option string)) (i : Z) : bool :=
  match argv !! Z.to_nat i with
  | Some (Some _) => bool_decide (0 ≤ i)
  | _ => false
  end.

Definition process_start (p : process) (argc : Z) (argv : list (option string))
    : M (PROCESS_ERROR * process) :=
  assert (bool_decide (argc > 0));;
  assert (arg argv argc);;
  (* Make sure process was initialized completely *)
  assert (nonnull (stdin p));;
  assert (nonnull (stdout p));;
  assert (nonnull (stderr p));;
  assert (nonnull (child_stdin p));;
  assert (nonnull (child_stdout p));;
  assert (nonnull (child_stderr p));;
  (* Make sure process_start is only called once for each process_init call *)
  assert (negb (nonnull (hThread (info p))));;
  assert (negb (nonnull (hProcess (info p))));;
  (* for (int i = 0; i < argc; i++) { assert(argv[i]); } *)
  assert (forallb (arg argv) (seqZ 0 argc));;
  let startup_info :=
    {| dwFlags := Z.lor 0 STARTF_USESTDHANDLES;
       (* Assign child pipe endpoints to child process stdin/stdout/stderr *)
       hStdInput := child_stdin p;
       hStdOutput := child_stdout p;
       hStdError := child_stderr p |} in
  let command_line_string := string_join argv argc in
  let command_line_wstring := string_to_wstring command_line_string in
  SetLastError 0;;
  '(_, pi) ← CreateProcessW command_line_wstring true CREATION_FLAGS
               startup_info (info p);
  let p := set_info pi p in
  free;;
  free;;
  e ← GetLastError;
  let error := system_error_to_process_error e in
  CloseHandle (child_stdin p);;
  CloseHandle (child_stdout p);;
  CloseHandle (child_stderr p);;
  CloseHandle (hThread (info p));;
  (* CreateProcessW error has priority over CloseHandle errors *)
  error ← (if bool_decide (error ≠ PROCESS_SUCCESS) then mret error
           else e ← GetLastError; mret (system_error_to_process_error e));
  mret (error, p).

(** The [switch] of [process_wait] on the result of the wait. *)
Definition wait_result_to_error (wait_result : DWORD) : M PROCESS_ERROR :=
  if bool_decide (wait_result = WAIT_TIMEOUT) then mret PROCESS_WAIT_TIMEOUT
  else if bool_decide (wait_result = WAIT_FAILED) then
    e ← GetLastError; mret (system_error_to_process_error e)
  else mret PROCESS_SUCCESS.

Definition process_wait (p : process) (milliseconds : Z) : M PROCESS_ERROR :=
  assert (nonnull (hProcess (info p)));;
  SetLastError 0;;
  wait_result ← WaitForSingleObject (hProcess (info p)) milliseconds;
  wait_result_to_error wait_result.

Definition process_terminate (p : process) (milliseconds : Z) : M PROCESS_ERROR :=
  assert (nonnull (dwProcessId (info p)));;
  SetLastError 0;;
  (* Process group of process started with CREATE_NEW_PROCESS_GROUP is equal
     to the process id *)
  ok ← GenerateConsoleCtrlEvent CTRL_BREAK_EVENT (dwProcessId (info p));
  if negb ok then
    e ← GetLastError; mret (system_error_to_process_error e)
  else process_wait p milliseconds.

Definition process_kill (p : process) (milliseconds : Z) : M PROCESS_ERROR :=
  assert (nonnull (hProcess (info p)));;
  SetLastError 0;;
  ok ← TerminateProcess (hProcess (info p)) 0;
  if negb ok then
    e ← GetLastError; mret (system_error_to_process_error e)
  else process_wait p milliseconds.

(** [if (c) { m; }], the value of [m] being dropped. *)
Definition when (c : bool) (m : M bool) : M unit :=
  if c then m;; mret tt else mret tt.

Definition process_free (p : process) : M PROCESS_ERROR :=
  SetLastError 0;;
  (* NULL checks so free works even if process was only partially initialized
     (can happen if error occurs during initialization or if start is not
     called) *)
  when (nonnull (stdin p)) (CloseHandle (stdin p));;
  when (nonnull (stdout p)) (CloseHandle (stdout p));;
  when (nonnull (stderr p)) (CloseHandle (stderr p));;
  when (nonnull (hProcess (info p))) (CloseHandle (hProcess (info p)));;
  e ← GetLastError;
  let error := system_error_to_process_error e in
  mret error.

Definition process_system_error : M Z := GetLastError.

End process_c.

(** ** Notions the statements use *)

(** The build in which every [assert] is compiled away, all else equal. *)
Definition unchecked (B : Build) : Build :=
  {| NDEBUG := true;
     system_error_to_process_error := @system_error_to_process_error B;
     string_join := @string_join B;
     string_to_wstring := @string_to_wstring B |}.

(** The conjunction of the assertions of [process_start]. *)
Definition start_preconditions (p : process) (argc : Z)
    (argv : list (option string)) : bool :=
  bool_decide (argc > 0) && arg argv argc &&
  nonnull (stdin p) && nonnull (stdout p) && nonnull (stderr p) &&
  nonnull (child_stdin p) && nonnull (child_stdout p) &&
  nonnull (child_stderr p) &&
  negb (nonnull (hThread (info p))) && negb (nonnull (hProcess (info p))) &&
  forallb (arg argv) (seqZ 0 argc).

(** The arguments of [CreateProcessW] as [process_start] builds them. *)
Definition start_command `{Build} (argc : Z) (argv : list (option string)) : list Z :=
  string_to_wstring (string_join argv argc).

Definition start_info (p : process) : STARTUPINFOW :=
  {| dwFlags := Z.lor 0 STARTF_USESTDHANDLES;
     hStdInput := child_stdin p;
     hStdOutput := child_stdout p;
     hStdError := child_stderr p |}.

(** What [CreateProcessW] will store in [info] when it is called in [w], and
    the content of the last-error register after that call and a
    [SetLastError (0)] before it. *)
Definition created_info (p : process) (w : world) : PROCESS_INFORMATION :=
  match spawn_fate w 0%nat with
  | inl _ => info p
  | inr _ =>
      {| hProcess := fresh_key (handles w);
         hThread := fresh_key (handles w) + 4;
         dwProcessId := fresh_key (children w);
         dwThreadId := fresh_key (children w) + 2 |}
  end.

Definition creation_error (w : world) : DWORD :=
  match spawn_fate w 0%nat with
  | inl e => Z.pos e
  | inr _ => 0
  end.

Definition created (w : world) : bool :=
  match spawn_fate w 0%nat with
  | inl _ => false
  | inr _ => true
  end.

(** What a run of [process_start] that got past its assertions comes to:
    [CreateProcessW], after it the two [free] and the reading of the
    register, then the four closes, each of which succeeds or not, and a
    second reading when the first one found no error. *)
Definition start_returned `{Build} (p : process) (argc : Z)
    (argv : list (option string)) (w : world)
    (o : outcome (PROCESS_ERROR * process)) : Prop :=
  ∃ b1 b2 b3 b4 err w',
    let e0 := creation_error w in
    let e1 := if b1 && b2 && b3 && b4 then e0 else ERROR_INVALID_HANDLE in
    let p' := set_info (created_info p w) p in
    let first := system_error_to_process_error e0 in
    let masked := bool_decide (first ≠ PROCESS_SUCCESS) in
    o = Returned (err, p') w' ∧
    trace w' = trace w ++
      [ev_SetLastError 0;
       ev_CreateProcessW (start_command argc argv) CREATION_FLAGS
         (start_info p) (created w);
       ev_free; ev_free; ev_GetLastError e0;
       ev_CloseHandle (child_stdin p) b1; ev_CloseHandle (child_stdout p) b2;
       ev_CloseHandle (child_stderr p) b3;
       ev_CloseHandle (hThread (info p')) b4] ++
      (if masked then [] else [ev_GetLastError e1]) ∧
    err = (if masked then first else system_error_to_process_error e1) ∧
    last_error w' = e1 ∧
    handles w' !! child_stdin p = None ∧
    handles w' !! child_stdout p = None ∧
    handles w' !! child_stderr p = None.

(** The six endpoints of a handle, each with the end of its pipe that it is
    meant to be: the parent writes to the child's standard input and reads
    from its standard output and standard error. *)
Definition endpoints (p : process) : list (HANDLE * pipe_end) :=
  [(stdin p, WriteEnd); (stdout p, ReadEnd); (stderr p, ReadEnd);
   (child_stdin p, ReadEnd); (child_stdout p, WriteEnd);
   (child_stderr p, WriteEnd)].

(** The handle table after three pipes were created, the first handle being
    [a]. *)
Definition pipe_handles (a : Z) (m : gmap Z hentry) : gmap Z hentry :=
  <[a + 20 := {| object := PipeEnd WriteEnd; inheritable := true |}]>
  (<[a + 16 := {| object := PipeEnd ReadEnd; inheritable := false |}]>
  (<[a + 12 := {| object := PipeEnd WriteEnd; inheritable := true |}]>
  (<[a + 8 := {| object := PipeEnd ReadEnd; inheritable := false |}]>
  (<[a + 4 := {| object := PipeEnd WriteEnd; inheritable := false |}]>
  (<[a := {| object := PipeEnd ReadEnd; inheritable := true |}]> m))))).

(** A handle is started in a world when its process reference is an open
    handle to a child that leads a process group of its own, named by
    [dwProcessId]. *)
Definition started (p : process) (w : world) : Prop :=
  hProcess (info p) ≠ NULL ∧ dwProcessId (info p) ≠ 0 ∧
  (∃ i, handles w !! hProcess (info p) =
          Some {| object := ProcessObj (dwProcessId (info p));
                  inheritable := i |}) ∧
  ∃ c, children w !! dwProcessId (info p) = Some c ∧
       group c = dwProcessId (info p).

(** The child of a handle. *)
Definition child_of (p : process) (w : world) : option child :=
  children w !! dwProcessId (info p).

(** A call that the system reported as failed. *)
Definition failing (e : event) : bool :=
  match e with
  | ev_CreatePipe ok | ev_CreateProcessW _ _ _ ok | ev_CloseHandle _ ok
  | ev_GenerateConsoleCtrlEvent _ _ ok | ev_TerminateProcess _ ok => negb ok
  | ev_WaitForSingleObject _ _ r => bool_decide (r = WAIT_FAILED)
  | _ => false
  end.

(** Every failing call of a log is directly followed by the reading of the
    last-error register. *)
Fixpoint observed_at_once (t : list event) : bool :=
  match t with
  | [] => true
  | e :: t' =>
      (if failing e then
         match t' with ev_GetLastError _ :: _ => true | _ => false end
       else true) && observed_at_once t'
  end.

(** The calls made since the log had [n] entries. *)
Definition since (n : nat) (w : world) : list event := drop n (trace w).

(** The error [err] that an operation returned is, for every failing call of
    the log [t], the translation of the code read by a [GetLastError] that
    directly follows that call. *)
Fixpoint reported_at_once `{Build} (err : PROCESS_ERROR) (t : list event) : Prop :=
  match t with
  | [] => True
  | ev :: t' =>
      (if failing ev then
         match t' with
         | ev_GetLastError e :: _ => err = system_error_to_process_error e
         | _ => False
         end
       else True) ∧ reported_at_once err t'
  end.

(** The [CloseHandle] that [process_free] makes for a field: none when the
    field is [NULL]. *)
Definition free_close (h : HANDLE) (ok : bool) : list event :=
  if nonnull h then [ev_CloseHandle h ok] else [].

(** ** Worlds to run the code in *)

(** A machine on which nothing has happened yet and where every pipe and
    every process is granted; the children run for ever and ignore
    CTRL-BREAK. *)
Definition quiet_world : world :=
  {| handles := ∅; children := ∅; last_error := 0; now := 0; trace := [];
     pipe_fate := λ _, None;
     spawn_fate := λ _, inr {| lifetime := None; on_break := None |};
     signal_fate := λ _, None |}.

(** The same machine, except that no executable is ever found
    ([ERROR_FILE_NOT_FOUND]). *)
Definition barren_world : world :=
  {| handles := ∅; children := ∅; last_error := 0; now := 0; trace := [];
     pipe_fate := λ _, None;
     spawn_fate := λ _, inl 2%positive;
     signal_fate := λ _, None |}.

(** The same machine, except that console signals are refused
    ([ERROR_ACCESS_DENIED]). *)
Definition deaf_world : world :=
  {| handles := ∅; children := ∅; last_error := 0; now := 0; trace := [];
     pipe_fate := λ _, None;
     spawn_fate := λ _, inr {| lifetime := None; on_break := None |};
     signal_fate := λ _, Some 5%positive |}.

Definition result {A} (o : outcome A) : option A :=
  match o with Returned a _ => Some a | _ => None end.

Definition final {A} (o : outcome A) : world :=
  match o with Returned _ w | Aborted w | Blocked w => w end.

(** The call never returns. *)
Definition blocked {A} (o : outcome A) : bool :=
  match o with Blocked _ => true | _ => false end.

(** A [process] as it is before [process_init]: its content does not
    matter. *)
Definition blank : process :=
  {| stdin := 0; stdout := 0; stderr := 0;
     child_stdin := 0; child_stdout := 0; child_stderr := 0;
     info := zero_info |}.

(** The handle that [process_init] fills on a machine that has no handle
    open, and the handle after a start that succeeded. *)
Definition initialised : process :=
  {| stdin := 8; stdout := 12; stderr := 20;
     child_stdin := 4; child_stdout := 16; child_stderr := 24;
     info := zero_info |}.

Definition running : process :=
  set_info {| hProcess := 28; hThread := 32;
              dwProcessId := 4; dwThreadId := 6 |} initialised.

(** An argument vector for [process_start]: one argument, and an entry
    after it that is not [NULL], as the assertion on [argv[argc]] wants
    it. *)
Definition argv_cmd : list (option string) := [Some "cmd"; Some "arg"]%string.

(** The worlds reached from [w] by [process_init], and then by
    [process_start]. *)
Definition after_init `{Build} (w : world) : world :=
  final (process_init blank w).

Definition after_start `{Build} (w : world) : world :=
  final (process_start initialised 1 argv_cmd (after_init w)).

(** ** Partial initialisation, and what a call leaves alone *)

(** The handle table after the first [n] pipes of [process_init] were
    created ([n] is 0, 1 or 2: with three pipes it is [pipe_handles]), the
    first handle being [a]. *)
Definition pipes_created (n : nat) (a : Z) (m : gmap Z hentry) : gmap Z hentry :=
  match n with
  | O => m
  | S O =>
      <[a + 4 := {| object := PipeEnd WriteEnd; inheritable := false |}]>
      (<[a := {| object := PipeEnd ReadEnd; inheritable := true |}]> m)
  | _ =>
      <[a + 12 := {| object := PipeEnd WriteEnd; inheritable := true |}]>
      (<[a + 8 := {| object := PipeEnd ReadEnd; inheritable := false |}]>
      (<[a + 4 := {| object := PipeEnd WriteEnd; inheritable := false |}]>
      (<[a := {| object := PipeEnd ReadEnd; inheritable := true |}]> m)))
  end.

(** The handle that [process_init] leaves when the pipe of rank [n] (from
    [0]) was refused and the pipes before it were granted, the first handle
    created being [a]. *)
Definition partly_initialised (n : nat) (a : Z) : process :=
  let set k h := if bool_decide (k < n)%nat then h else NULL in
  {| stdin := set 0%nat (a + 4); stdout := set 1%nat (a + 8); stderr := NULL;
     child_stdin := set 0%nat a; child_stdout := set 1%nat (a + 12);
     child_stderr := NULL; info := zero_info |}.

(** The three parent-side endpoints that [process_init] creates, the first
    handle of the three pipes being [a]. *)
Definition parent_handles (a : Z) (m : gmap Z hentry) : gmap Z hentry :=
  <[a + 16 := {| object := PipeEnd ReadEnd; inheritable := false |}]>
  (<[a + 8 := {| object := PipeEnd ReadEnd; inheritable := false |}]>
  (<[a + 4 := {| object := PipeEnd WriteEnd; inheritable := false |}]> m)).

(** A computation that leaves the handle table as it found it, however it
    ends. *)
Definition keeps_handles {A} (m : M A) : Prop :=
  ∀ w, handles (final (m w)) = handles w.

(** A machine that grants the first pipe and refuses the second
    ([ERROR_TOO_MANY_OPEN_FILES]). *)
Definition stingy_world : world :=
  {| handles := ∅; children := ∅; last_error := 0; now := 0; trace := [];
     pipe_fate := λ n, match n with 1%nat => Some 4%positive | _ => None end;
     spawn_fate := λ _, inr {| lifetime := None; on_break := None |};
     signal_fate := λ _, None |}.

(** A machine whose children exit as soon as they are created. *)
Definition brief_world : world :=
  {| handles := ∅; children := ∅; last_error := 0; now := 0; trace := [];
     pipe_fate := λ _, None;
     spawn_fate := λ _, inr {| lifetime := Some 0; on_break := None |};
     signal_fate := λ _, None |}.

(** The world after [process_free] on a started handle. *)
Definition after_free `{Build} (w : world) : world :=
  final (process_free running (after_start w)).

(** ** Proof steps *)

Ltac exec :=
  cbv [process_init process_start process_wait process_terminate process_kill
       process_free wait_result_to_error when assert pipe_init
       CreateProcessW CloseHandle SetLastError GetLastError free
       WaitForSingleObject GenerateConsoleCtrlEvent TerminateProcess
       mbind M_bind mret M_ret
       log set_handles set_children set_last_error set_now
       next_pipe next_spawn next_signal
       handles children last_error now trace pipe_fate spawn_fate signal_fate
       set_info stdin stdout stderr child_stdin child_stdout child_stderr info
       hProcess hThread dwProcessId dwThreadId zero_info NULL].

Ltac exec_world :=
  cbv [log set_handles set_children set_last_error set_now
       next_pipe next_spawn next_signal
       handles children last_error now trace pipe_fate spawn_fate signal_fate].

Ltac map_lookup :=
  repeat first
    [ rewrite lookup_insert_eq | rewrite lookup_delete_eq
    | rewrite lookup_insert_ne by lia | rewrite lookup_delete_ne by lia ].

Ltac exec_unchecked B :=
  exec;
  change (@NDEBUG (unchecked B)) with true;
  change (@system_error_to_process_error (unchecked B))
    with (@system_error_to_process_error B);
  change (@string_join (unchecked B)) with (@string_join B);
  change (@string_to_wstring (unchecked B)) with (@string_to_wstring B);
  exec.

Ltac closed :=
  solve [ repeat first
            [ assumption | apply lookup_delete_eq
            | apply lookup_delete_None; right ] ].

Ltac suffix :=
  unfold since; cbn [trace];
  rewrite <- ?app_assoc; rewrite drop_app_length; cbn [app].

Ltac closes :=
  repeat match goal with
         | |- context [match ?m !! ?h with _ => _ end] =>
             destruct (m !! h) eqn:?; exec
         end.

Ltac undo_inserts :=
  repeat first
    [ rewrite delete_insert_eq
    | rewrite delete_insert_ne by lia
    | match goal with
      | |- context [delete ?k ?m] =>
          is_var m;
          rewrite (delete_id m k)
            by (first [ assumption
                      | match goal with
                        | H : ∀ d, 0 ≤ d → m !! _ = None |- _ => apply H; lia
                        end ])
      end ].

(** * Facts about the model *)

Lemma foldr_max_bound (l : list Z) :
  0 ≤ foldr Z.max 0 l ∧ ∀ k, k ∈ l → k ≤ foldr Z.max 0 l.
Proof.
  induction l as [|x l [IH0 IH]]; simpl.
  - split; [lia|]. intros k Hk. by apply elem_of_nil in Hk.
  - split; [lia|]. intros k [->|Hk]%elem_of_cons; [lia|]. specialize (IH _ Hk). lia.
Qed.

Lemma foldr_max_attained (l : list Z) :
  foldr Z.max 0 l = 0 ∨ foldr Z.max 0 l ∈ l.
Proof.
  induction l as [|x l IH]; simpl; [by left|].
  destruct (Z.max_spec x (foldr Z.max 0 l)) as [[_ ->]|[_ ->]].
  - destruct IH as [->|IH]; [by left|]. right. by apply elem_of_cons; right.
  - right. by apply elem_of_cons; left.
Qed.

Lemma fresh_key_above {A} (m : gmap Z A) k : is_Some (m !! k) → k + 4 ≤ fresh_key m.
Proof.
  intros [v Hv]. unfold fresh_key.
  destruct (foldr_max_bound (map_to_list m).*1) as [_ Hb].
  assert (k ∈ (map_to_list m).*1) as Hk.
  { apply list_elem_of_fmap. exists (k, v). split; [done|]. by apply elem_of_map_to_list. }
  specialize (Hb _ Hk). lia.
Qed.

Lemma fresh_key_pos {A} (m : gmap Z A) : 4 ≤ fresh_key m.
Proof. unfold fresh_key. destruct (foldr_max_bound (map_to_list m).*1). lia. Qed.

Lemma fresh_key_free {A} (m : gmap Z A) d : 0 ≤ d → m !! (fresh_key m + d) = None.
Proof.
  intros Hd. destruct (m !! (fresh_key m + d)) eqn:E; [|done].
  assert (fresh_key m + d + 4 ≤ fresh_key m) by (apply fresh_key_above; eauto). lia.
Qed.

Lemma fresh_key_least {A} (m : gmap Z A) :
  fresh_key m = 4 ∨ is_Some (m !! (fresh_key m - 4)).
Proof.
  unfold fresh_key. destruct (foldr_max_attained (map_to_list m).*1) as [->|Hin].
  - by left.
  - right. apply list_elem_of_fmap in Hin as [[k v] [Hk Hin]]. simpl in Hk.
    apply elem_of_map_to_list in Hin.
    replace (4 + foldr Z.max 0 (map_to_list m).*1 - 4) with k by lia. eauto.
Qed.

Lemma fresh_key_insert {A} (m : gmap Z A) k v :
  fresh_key (<[k:=v]> m) = Z.max (k + 4) (fresh_key m).
Proof.
  pose proof (fresh_key_pos m). pose proof (fresh_key_pos (<[k:=v]> m)).
  assert (k + 4 ≤ fresh_key (<[k:=v]> m)).
  { apply fresh_key_above. rewrite lookup_insert_eq. eauto. }
  assert (fresh_key m ≤ fresh_key (<[k:=v]> m)).
  { destruct (fresh_key_least m) as [E|[x Hx]]; [lia|].
    assert (fresh_key m - 4 + 4 ≤ fresh_key (<[k:=v]> m)); [|lia].
    apply fresh_key_above. rewrite lookup_insert. case_decide; eauto. }
  destruct (fresh_key_least (<[k:=v]> m)) as [E|[x Hx]]; [lia|].
  rewrite lookup_insert in Hx. case_decide.
  - lia.
  - assert (fresh_key (<[k:=v]> m) - 4 + 4 ≤ fresh_key m) by (apply fresh_key_above; eauto).
    lia.
Qed.


(** * The functions of [process.c] *)

Section process_c_facts.
Context {B : Build}.

Lemma process_init_success p w p' w' :
  translates_success →
  process_init p w = Returned (PROCESS_SUCCESS, p') w' →
  let a := fresh_key (handles w) in
  p' = {| stdin := a + 4; stdout := a + 8; stderr := a + 16;
          child_stdin := a; child_stdout := a + 12; child_stderr := a + 20;
          info := zero_info |} ∧
  w' = {| handles := pipe_handles a (handles w);
          children := children w; last_error := 0; now := now w;
          trace := trace w ++ [ev_SetLastError 0; ev_CreatePipe true;
                               ev_CreatePipe true; ev_CreatePipe true;
                               ev_GetLastError 0];
          pipe_fate := λ n, pipe_fate w (S (S (S n)));
          spawn_fate := spawn_fate w; signal_fate := signal_fate w |}.
Proof.
  intros Htr. destruct w as [hs ch le nw tr pf sf gf]. exec.
  destruct (pf 0%nat) eqn:E1.
  { intros [= E _ _]. by apply Htr in E. }
  destruct (pf 1%nat) eqn:E2.
  { intros [= E _ _]. by apply Htr in E. }
  destruct (pf 2%nat) eqn:E3.
  { intros [= E _ _]. by apply Htr in E. }
  intros [= _ <- <-].
  rewrite !fresh_key_insert.
  repeat match goal with
         | |- context [Z.max ?x ?y] =>
             first [rewrite (Z.max_l x y) by lia | rewrite (Z.max_r x y) by lia]
         end.
  set (a := fresh_key hs).
  replace (a + 4 + 4 + 4 + 4 + 4) with (a + 20) by lia.
  replace (a + 4 + 4 + 4 + 4) with (a + 16) by lia.
  replace (a + 4 + 4 + 4) with (a + 12) by lia.
  replace (a + 4 + 4) with (a + 8) by lia.
  split; [reflexivity|].
  unfold pipe_handles. by rewrite <- !app_assoc.
Qed.

Lemma nonnull_true h : h ≠ 0 → nonnull h = true.
Proof. intros. unfold nonnull. by rewrite bool_decide_eq_false_2. Qed.

Lemma nonnull_0 : nonnull 0 = false.
Proof. reflexivity. Qed.

Lemma free_after_init p0 w0 p w :
  translates_success →
  process_init p0 w0 = Returned (PROCESS_SUCCESS, p) w →
  ∃ w1 w2,
    process_free p w = Returned PROCESS_SUCCESS w1 ∧
    trace w1 = trace w ++
      [ev_SetLastError 0; ev_CloseHandle (stdin p) true;
       ev_CloseHandle (stdout p) true; ev_CloseHandle (stderr p) true;
       ev_GetLastError 0] ∧
    handles w1 =
      delete (stderr p) (delete (stdout p) (delete (stdin p) (handles w))) ∧
    process_free p w1 =
      Returned (system_error_to_process_error ERROR_INVALID_HANDLE) w2 ∧
    trace w2 = trace w1 ++
      [ev_SetLastError 0; ev_CloseHandle (stdin p) false;
       ev_CloseHandle (stdout p) false; ev_CloseHandle (stderr p) false;
       ev_GetLastError ERROR_INVALID_HANDLE].
Proof.
  intros Htr Hinit. destruct (process_init_success _ _ _ _ Htr Hinit) as [-> ->].
  destruct w0 as [hs ch le nw tr pf sf gf].
  pose proof (fresh_key_pos hs) as Hpos.
  assert (system_error_to_process_error 0 = PROCESS_SUCCESS) as H0 by by apply Htr.
  eexists _, _. exec. set (a := fresh_key hs) in *.
  rewrite !nonnull_true by lia. rewrite nonnull_0. unfold pipe_handles. exec.
  map_lookup. exec. map_lookup. exec. map_lookup. exec. rewrite H0.
  split; [reflexivity|].
  split; [by rewrite <- !app_assoc|].
  split; [reflexivity|].
  map_lookup. exec. map_lookup. exec. map_lookup. exec.
  split; [reflexivity|].
  by rewrite <- !app_assoc.
Qed.

Lemma assert_bind {A} c (k : M A) w :
  (assert c ≫= λ _, k) w = if NDEBUG || c then k w else Aborted w.
Proof. unfold assert, mbind, M_bind. by destruct NDEBUG, c. Qed.

Lemma start_checked_or_aborted p argc argv w :
  process_start p argc argv w =
    if NDEBUG || start_preconditions p argc argv
    then @process_start (unchecked B) p argc argv w
    else Aborted w.
Proof.
  unfold process_start at 1. unfold start_preconditions. rewrite !assert_bind.
  destruct NDEBUG; [reflexivity|].
  destruct (bool_decide (argc > 0)); [|reflexivity].
  destruct (arg argv argc); [|reflexivity].
  destruct (nonnull (stdin p)); [|reflexivity].
  destruct (nonnull (stdout p)); [|reflexivity].
  destruct (nonnull (stderr p)); [|reflexivity].
  destruct (nonnull (child_stdin p)); [|reflexivity].
  destruct (nonnull (child_stdout p)); [|reflexivity].
  destruct (nonnull (child_stderr p)); [|reflexivity].
  destruct (nonnull (hThread (info p))); [reflexivity|].
  destruct (nonnull (hProcess (info p))); [reflexivity|].
  destruct (forallb (arg argv) (seqZ 0 argc)); reflexivity.
Qed.

Lemma start_unchecked_run p argc argv w :
  start_returned p argc argv w (@process_start (unchecked B) p argc argv w).
Proof.
  destruct w as [hs ch le nw tr pf sf gf].
  destruct p as [i o e ci co ce [hp ht pid tid]].
  unfold start_returned, creation_error, created_info, created, start_command,
    start_info.
  exec_unchecked B.
  destruct (sf 0%nat) as [err|b]; exec.
  - closes.
    all: case_bool_decide; exec.
    all: eexists _, _, _, _, _, _.
    all: split; [reflexivity|].
    all: split; [rewrite <- !app_assoc; cbn [app]; repeat f_equal; reflexivity|].
    all: split; [reflexivity|].
    all: split; [reflexivity|].
    all: repeat split; closed.
  - closes.
    all: case_bool_decide; exec.
    all: eexists _, _, _, _, _, _.
    all: split; [reflexivity|].
    all: split; [rewrite <- !app_assoc; cbn [app]; repeat f_equal; reflexivity|].
    all: split; [reflexivity|].
    all: split; [reflexivity|].
    all: repeat split; closed.
Qed.

Lemma start_run p argc argv w :
  (NDEBUG = false ∧ start_preconditions p argc argv = false ∧
   process_start p argc argv w = Aborted w) ∨
  start_returned p argc argv w (process_start p argc argv w).
Proof.
  rewrite start_checked_or_aborted.
  destruct (NDEBUG || start_preconditions p argc argv) eqn:Hpre.
  - right. apply start_unchecked_run.
  - left. by apply orb_false_elim in Hpre as [-> ->].
Qed.

(** C4.  Whatever [process_start] returns, success or an error, none of the
    three child-side endpoints is an open handle of the parent any more when
    it returns.  The call always comes back: it returns, or (in a build with
    assertions only) it stops on a failed assertion before any system call;
    it never blocks. *)
Theorem start_closes_child_endpoints p argc argv w :
  match process_start p argc argv w with
  | Returned (e, p') w' =>
      handles w' !! child_stdin p = None ∧
      handles w' !! child_stdout p = None ∧
      handles w' !! child_stderr p = None
  | Aborted w' => NDEBUG = false ∧ w' = w
  | Blocked _ => False
  end.
Proof.
  destruct (start_run p argc argv w)
    as [(Hd & _ & ->)|(b1 & b2 & b3 & b4 & err & w' & -> & _ & _ & _ & Hc)];
    done.
Qed.

Lemma start_success_created p argc argv w p1 w1 :
  translates_success →
  process_start p argc argv w = Returned (PROCESS_SUCCESS, p1) w1 →
  created w = true ∧ p1 = set_info (created_info p w) p ∧
  hThread (info p1) ≠ NULL ∧ hProcess (info p1) ≠ NULL.
Proof.
  intros Htr Hs.
  destruct (start_run p argc argv w)
    as [(_ & _ & Ha)|(b1 & b2 & b3 & b4 & err & w' & Hr & _ & He & _)].
  { rewrite Ha in Hs. discriminate. }
  rewrite Hr in Hs. injection Hs as -> <- <-. cbv zeta in He.
  unfold created, created_info, creation_error in *.
  destruct (spawn_fate w 0%nat) as [e|b].
  - exfalso. case_bool_decide as Hm.
    + by rewrite He in Hm.
    + by apply Htr in Hm.
  - split; [done|]. split; [done|]. cbn.
    pose proof (fresh_key_pos (handles w)). unfold NULL. lia.
Qed.

Lemma started_not_startable p argc argv :
  hThread (info p) ≠ NULL → start_preconditions p argc argv = false.
Proof.
  intros Hn. unfold start_preconditions. rewrite (nonnull_true (hThread _)) by done.
  cbn [negb]. by rewrite andb_false_r.
Qed.

(** C1.  When [process_init] returns [PROCESS_SUCCESS], the six endpoints of
    the handle are six different values, none of them [NULL]; each one was
    not a handle before the call and is, after it, an open handle on the end
    of a pipe that it is meant to be (the parent's [stdin] a write end, its
    [stdout] and [stderr] read ends, and the opposite for the child's).
    For a translation of platform errors in which [0] alone is success. *)
Theorem init_creates_six_distinct_endpoints p w p' w' :
  translates_success →
  process_init p w = Returned (PROCESS_SUCCESS, p') w' →
  NoDup (endpoints p').*1 ∧
  Forall (λ he, he.1 ≠ NULL ∧ handles w !! he.1 = None ∧
                object <$> handles w' !! he.1 = Some (PipeEnd he.2))
         (endpoints p').
Proof.
  intros Htr Hinit.
  destruct (process_init_success _ _ _ _ Htr Hinit) as [-> ->].
  pose proof (fresh_key_pos (handles w)) as Hpos.
  pose proof (fresh_key_free (handles w)) as Hfree.
  assert (handles w !! fresh_key (handles w) = None) as Hfree0.
  { rewrite <- (Z.add_0_r (fresh_key _)). by apply Hfree. }
  set (a := fresh_key (handles w)) in *.
  unfold endpoints, pipe_handles, NULL. exec. cbv [fmap list_fmap fst snd]. split.
  - repeat (apply NoDup_cons; split;
            [rewrite ?not_elem_of_cons; repeat split;
             first [lia | apply not_elem_of_nil]|]).
    apply NoDup_nil_2.
  - repeat (apply Forall_cons_2;
            [cbv [fst snd]; split; [lia|]; split;
             [first [exact Hfree0 | apply Hfree; lia]
             |map_lookup; reflexivity]|]).
    apply Forall_nil_2.
Qed.

(** C2, as amended.  On a handle that only completed [process_init],
    [process_free] closes each of the three parent endpoints once, makes no
    call for the process reference that was never set, and returns
    [PROCESS_SUCCESS].  It does not clear the fields it closed: a second call
    in a row passes the same three handles to [CloseHandle] again, each call
    fails, and the translation of [ERROR_INVALID_HANDLE] is returned. *)
Theorem free_once_after_init_then_repeats p0 w0 p w :
  translates_success →
  process_init p0 w0 = Returned (PROCESS_SUCCESS, p) w →
  ∃ w1 w2,
    process_free p w = Returned PROCESS_SUCCESS w1 ∧
    trace w1 = trace w ++
      [ev_SetLastError 0; ev_CloseHandle (stdin p) true;
       ev_CloseHandle (stdout p) true; ev_CloseHandle (stderr p) true;
       ev_GetLastError 0] ∧
    process_free p w1 =
      Returned (system_error_to_process_error ERROR_INVALID_HANDLE) w2 ∧
    trace w2 = trace w1 ++
      [ev_SetLastError 0; ev_CloseHandle (stdin p) false;
       ev_CloseHandle (stdout p) false; ev_CloseHandle (stderr p) false;
       ev_GetLastError ERROR_INVALID_HANDLE].
Proof.
  intros Htr Hinit.
  destruct (free_after_init _ _ _ _ Htr Hinit)
    as (w1 & w2 & Hf1 & Ht1 & _ & Hf2 & Ht2).
  by exists w1, w2.
Qed.

(** C3, what the code does.  After a [process_init] that succeeded and no
    [process_start], [process_free] returns [PROCESS_SUCCESS] and the three
    child-side endpoints are still open: it closes [stdin], [stdout],
    [stderr] and [info.hProcess], and nothing else. *)
Theorem free_after_init_leaves_child_endpoints_open p0 w0 p w :
  translates_success →
  process_init p0 w0 = Returned (PROCESS_SUCCESS, p) w →
  ∃ w1,
    process_free p w = Returned PROCESS_SUCCESS w1 ∧
    object <$> handles w1 !! child_stdin p = Some (PipeEnd ReadEnd) ∧
    object <$> handles w1 !! child_stdout p = Some (PipeEnd WriteEnd) ∧
    object <$> handles w1 !! child_stderr p = Some (PipeEnd WriteEnd).
Proof.
  intros Htr Hinit.
  destruct (free_after_init _ _ _ _ Htr Hinit)
    as (w1 & w2 & Hf1 & _ & Hh & _ & _).
  exists w1. split; [done|]. rewrite Hh.
  destruct (process_init_success _ _ _ _ Htr Hinit) as [-> ->].
  unfold pipe_handles. exec.
  repeat split; map_lookup; reflexivity.
Qed.

(** C5, as amended.  Once [process_start] has succeeded on a handle, a second
    [process_start] on it is stopped by the assertions on [info.hThread] and
    [info.hProcess] and by nothing else: a build with assertions aborts
    before any system call, and a build with [NDEBUG] calls [CreateProcessW]
    again and returns what that run yields. *)
Theorem second_start_stopped_by_assert_only p argc argv w p1 w1 argc' argv' :
  translates_success →
  process_start p argc argv w = Returned (PROCESS_SUCCESS, p1) w1 →
  if NDEBUG then
    ∃ err p2 w2 ok rest,
      process_start p1 argc' argv' w1 = Returned (err, p2) w2 ∧
      trace w2 = trace w1 ++
        ev_SetLastError 0 ::
        ev_CreateProcessW (start_command argc' argv') CREATION_FLAGS
          (start_info p1) ok :: rest
  else process_start p1 argc' argv' w1 = Aborted w1.
Proof.
  intros Htr Hs.
  destruct (start_success_created _ _ _ _ _ _ Htr Hs) as (_ & _ & Hth & _).
  destruct NDEBUG eqn:Hnd.
  - destruct (start_run p1 argc' argv' w1)
      as [(Hd & _)|(b1 & b2 & b3 & b4 & err & w2 & Hr & Ht & _)].
    { congruence. }
    eexists _, _, _, _, _. split; [exact Hr|]. rewrite Ht.
    cbn [app]. reflexivity.
  - rewrite start_checked_or_aborted, Hnd.
    by rewrite started_not_startable.
Qed.

Lemma init_reported p w :
  match process_init p w with
  | Returned (err, _) w' => reported_at_once err (since (length (trace w)) w')
  | _ => False
  end.
Proof.
  destruct w as [hs ch le nw tr pf sf gf]. exec.
  destruct (pf 0%nat); exec; [|destruct (pf 1%nat); exec;
                                  [|destruct (pf 2%nat); exec]].
  all: suffix; cbn; done.
Qed.

Lemma wait_reported p ms w :
  match process_wait p ms w with
  | Returned err w' => reported_at_once err (since (length (trace w)) w')
  | Aborted w' => NDEBUG = false ∧ w' = w
  | Blocked _ => ms = INFINITE
  end.
Proof.
  destruct w as [hs ch le nw tr pf sf gf].
  destruct p as [si so se ci co ce [hp ht pid tid]].
  exec. destruct NDEBUG eqn:Hnd; [|unfold nonnull; case_bool_decide; cbn [negb]].
  2: { done. }
  all: exec.
  all: destruct (hs !! hp) as [[[|q|] ?]|]; exec.
  all: try destruct (ch !! q) as [c|]; exec.
  all: try (unfold exited; destruct (exit_time c) as [t|]; exec).
  all: repeat (case_bool_decide; exec).
  all: try (suffix; cbn; done).
  all: try done.
Qed.

Lemma kill_reported p ms w :
  match process_kill p ms w with
  | Returned err w' => reported_at_once err (since (length (trace w)) w')
  | Aborted w' => NDEBUG = false ∧ w' = w
  | Blocked _ => ms = INFINITE
  end.
Proof.
  destruct w as [hs ch le nw tr pf sf gf].
  destruct p as [si so se ci co ce [hp ht pid tid]].
  exec. destruct NDEBUG eqn:Hnd; [|unfold nonnull; case_bool_decide; cbn [negb]].
  2: { done. }
  all: exec.
  all: destruct (hs !! hp) as [[[|q|] ?]|] eqn:Hh; exec.
  all: try (destruct (ch !! q) as [c|] eqn:Hc; exec).
  all: try (destruct (exited c nw) eqn:Hex; exec).
  all: cbv [negb]; exec.
  all: rewrite ?Hh; exec.
  all: rewrite ?lookup_insert_eq; exec.
  all: try (unfold exited; cbn [exit_time]).
  all: repeat (case_bool_decide; exec).
  all: try (suffix; cbn; done).
  all: try done.
  all: try lia.
Qed.

Lemma terminate_reported p ms w :
  match process_terminate p ms w with
  | Returned err w' => reported_at_once err (since (length (trace w)) w')
  | Aborted _ => NDEBUG = false
  | Blocked _ => ms = INFINITE
  end.
Proof.
  destruct w as [hs ch le nw tr pf sf gf].
  destruct p as [si so se ci co ce [hp ht pid tid]].
  exec. destruct NDEBUG eqn:Hnd; [|unfold nonnull; case_bool_decide; cbn [negb]].
  2: { done. }
  all: exec.
  all: destruct (gf 0%nat); exec.
  all: try destruct (group_exists _ _); exec.
  all: cbv [negb]; exec.
  all: try (unfold nonnull; case_bool_decide; cbn [negb]; exec).
  all: try destruct (hs !! hp) as [[[|q|] ?]|]; exec.
  all: try match goal with
           | |- context [match ?m !! ?k with _ => _ end] =>
               destruct (m !! k) as [c|]; exec
           end.
  all: try (unfold exited; destruct (exit_time c) as [t|]; exec).
  all: repeat (case_bool_decide; exec).
  all: try (suffix; cbn; done).
  all: try done.
Qed.

Lemma start_reported p argc argv w :
  translates_success →
  match process_start p argc argv w with
  | Returned (err, p') w' =>
      ∃ b1 b2 b3 b4,
        let e0 := creation_error w in
        let e1 := if b1 && b2 && b3 && b4 then e0 else ERROR_INVALID_HANDLE in
        since (length (trace w)) w' =
          [ev_SetLastError 0;
           ev_CreateProcessW (start_command argc argv) CREATION_FLAGS
             (start_info p) (created w);
           ev_free; ev_free; ev_GetLastError e0;
           ev_CloseHandle (child_stdin p) b1; ev_CloseHandle (child_stdout p) b2;
           ev_CloseHandle (child_stderr p) b3;
           ev_CloseHandle (hThread (info p')) b4] ++
          (if created w then [ev_GetLastError e1] else []) ∧
        err = system_error_to_process_error (if created w then e1 else e0)
  | Aborted w' => NDEBUG = false ∧ w' = w
  | Blocked _ => False
  end.
Proof.
  intros Htr.
  destruct (start_run p argc argv w)
    as [(Hd & _ & ->)|(b1 & b2 & b3 & b4 & err & w' & -> & Ht & He & _)];
    [done|].
  cbv zeta in *. exists b1, b2, b3, b4.
  unfold since. rewrite Ht, drop_app_length. subst err.
  unfold creation_error, created, created_info in *.
  destruct (spawn_fate w 0%nat) as [e|b].
  - assert (system_error_to_process_error (Z.pos e) ≠ PROCESS_SUCCESS) as Hne.
    { intros HH. by apply Htr in HH. }
    rewrite !bool_decide_eq_true_2 by done. done.
  - assert (system_error_to_process_error 0 = PROCESS_SUCCESS) as H0 by by apply Htr.
    rewrite !bool_decide_eq_false_2 by (intros HH; by apply HH). done.
Qed.

Lemma free_reported p w :
  ∃ err w' b1 b2 b3 b4,
    let e := if b1 && b2 && b3 && b4 then 0 else ERROR_INVALID_HANDLE in
    process_free p w = Returned err w' ∧
    since (length (trace w)) w' =
      ev_SetLastError 0 ::
      free_close (stdin p) b1 ++ free_close (stdout p) b2 ++
      free_close (stderr p) b3 ++ free_close (hProcess (info p)) b4 ++
      [ev_GetLastError e] ∧
    err = system_error_to_process_error e.
Proof.
  destruct w as [hs ch le nw tr pf sf gf].
  destruct p as [i o e ci co ce [hp ht pid tid]].
  unfold free_close.
  exec. unfold nonnull.
  repeat (case_bool_decide; cbn [negb]; exec; closes).
  all: eexists _, _, _, _, _, _; cbv zeta.
  all: split; [reflexivity|].
  all: suffix.
  all: split; [repeat f_equal|].
  all: repeat instantiate (1 := true).
  all: reflexivity.
Qed.

(** C6, as amended.  In [process_init], [process_wait], [process_terminate]
    and [process_kill] every failing call is directly followed by the
    reading of the last-error register, and the error returned is the
    translation of the code read.  [process_start] and [process_free] clear
    the register once, make a group of calls and read it afterwards.  In
    [process_start] the two calls of [free] come between [CreateProcessW]
    and the reading of its code, which they leave as it is; when the
    creation failed the translation of that code is returned, and the four
    [CloseHandle] calls that follow are not read at all; when it succeeded
    their errors are read once, after all four.  [process_free] reads the
    register once, after the last of its [CloseHandle] calls.  For a
    translation of platform errors in which [0] alone is success. *)
Theorem errors_read_at_once_except_start_and_free p argc argv ms w :
  translates_success →
  match process_init p w with
  | Returned (err, _) w' => reported_at_once err (since (length (trace w)) w')
  | _ => False
  end ∧
  match process_wait p ms w with
  | Returned err w' => reported_at_once err (since (length (trace w)) w')
  | Aborted w' => NDEBUG = false ∧ w' = w
  | Blocked _ => ms = INFINITE
  end ∧
  match process_terminate p ms w with
  | Returned err w' => reported_at_once err (since (length (trace w)) w')
  | Aborted _ => NDEBUG = false
  | Blocked _ => ms = INFINITE
  end ∧
  match process_kill p ms w with
  | Returned err w' => reported_at_once err (since (length (trace w)) w')
  | Aborted w' => NDEBUG = false ∧ w' = w
  | Blocked _ => ms = INFINITE
  end ∧
  match process_start p argc argv w with
  | Returned (err, p') w' =>
      ∃ b1 b2 b3 b4,
        let e0 := creation_error w in
        let e1 := if b1 && b2 && b3 && b4 then e0 else ERROR_INVALID_HANDLE in
        since (length (trace w)) w' =
          [ev_SetLastError 0;
           ev_CreateProcessW (start_command argc argv) CREATION_FLAGS
             (start_info p) (created w);
           ev_free; ev_free; ev_GetLastError e0;
           ev_CloseHandle (child_stdin p) b1; ev_CloseHandle (child_stdout p) b2;
           ev_CloseHandle (child_stderr p) b3;
           ev_CloseHandle (hThread (info p')) b4] ++
          (if created w then [ev_GetLastError e1] else []) ∧
        err = system_error_to_process_error (if created w then e1 else e0)
  | Aborted w' => NDEBUG = false ∧ w' = w
  | Blocked _ => False
  end ∧
  ∃ err w' b1 b2 b3 b4,
    let e := if b1 && b2 && b3 && b4 then 0 else ERROR_INVALID_HANDLE in
    process_free p w = Returned err w' ∧
    since (length (trace w)) w' =
      ev_SetLastError 0 ::
      free_close (stdin p) b1 ++ free_close (stdout p) b2 ++
      free_close (stderr p) b3 ++ free_close (hProcess (info p)) b4 ++
      [ev_GetLastError e] ∧
    err = system_error_to_process_error e.
Proof.
  intros Htr. split_and!.
  - apply init_reported.
  - apply wait_reported.
  - apply terminate_reported.
  - apply kill_reported.
  - by apply start_reported.
  - apply free_reported.
Qed.

(** C9.  In [process_start] the error of [CreateProcessW] has priority over
    those of the four [CloseHandle] calls that follow it.  If the process was
    not created, the translation of the creation error is returned, whether
    the closes succeed or leave [ERROR_INVALID_HANDLE] in the register.  If
    it was created, what is returned is the translation of the register
    after the closes: success when all four succeeded, the invalid-handle
    error when one of them failed. *)
Theorem creation_error_has_priority p argc argv w :
  translates_success →
  match process_start p argc argv w with
  | Returned (err, p') w' =>
      ∃ b1 b2 b3 b4 pre post,
        trace w' = trace w ++ pre ++
          [ev_CloseHandle (child_stdin p) b1;
           ev_CloseHandle (child_stdout p) b2;
           ev_CloseHandle (child_stderr p) b3;
           ev_CloseHandle (hThread (info p')) b4] ++ post ∧
        match spawn_fate w 0%nat with
        | inl e =>
            err = system_error_to_process_error (Z.pos e) ∧
            err ≠ PROCESS_SUCCESS ∧
            last_error w' =
              (if b1 && b2 && b3 && b4 then Z.pos e else ERROR_INVALID_HANDLE)
        | inr _ =>
            err = system_error_to_process_error
                    (if b1 && b2 && b3 && b4 then 0 else ERROR_INVALID_HANDLE)
        end
  | Aborted w' => NDEBUG = false ∧ w' = w
  | Blocked _ => False
  end.
Proof.
  intros Htr.
  destruct (start_run p argc argv w)
    as [(Hd & _ & ->)|(b1 & b2 & b3 & b4 & err & w' & -> & Ht & He & Hl & _)];
    [done|].
  cbv zeta in *. exists b1, b2, b3, b4.
  exists [ev_SetLastError 0;
          ev_CreateProcessW (start_command argc argv) CREATION_FLAGS
            (start_info p) (created w);
          ev_free; ev_free; ev_GetLastError (creation_error w)].
  eexists. split; [rewrite Ht; cbn [app]; reflexivity|].
  unfold creation_error in *. destruct (spawn_fate w 0%nat) as [e|b].
  - assert (system_error_to_process_error (Z.pos e) ≠ PROCESS_SUCCESS) as Hne.
    { intros HH. by apply Htr in HH. }
    rewrite bool_decide_eq_true_2 in He by done. by subst err.
  - assert (system_error_to_process_error 0 = PROCESS_SUCCESS) as H0 by by apply Htr.
    rewrite bool_decide_eq_false_2 in He; [done|]. intros HH. by apply HH.
Qed.

Lemma wait_running_times_out p ms w c :
  started p w →
  child_of p w = Some c →
  (∀ t, exit_time c = Some t → now w + ms < t) →
  0 ≤ ms → ms ≠ INFINITE →
  ∃ w',
    process_wait p ms w = Returned PROCESS_WAIT_TIMEOUT w' ∧
    now w' = now w + ms ∧
    trace w' = trace w ++
      [ev_SetLastError 0;
       ev_WaitForSingleObject (hProcess (info p)) ms WAIT_TIMEOUT].
Proof.
  intros (Hhp & Hpid & [i Hh] & _) Hc Hrun Hms Hinf.
  destruct w as [hs ch le nw tr pf sf gf].
  destruct p as [si so se ci co ce [hp ht pid tid]].
  unfold child_of in Hc. cbn in Hhp, Hpid, Hh, Hc, Hrun.
  exec. rewrite (nonnull_true hp) by done.
  assert (∀ x : world, (if NDEBUG then Returned () x else Returned () x)
                       = Returned () x) as Hif by by destruct NDEBUG.
  rewrite Hif. exec. rewrite Hh. rewrite Hc.
  unfold exited. destruct (exit_time c) as [t|] eqn:Ht.
  - specialize (Hrun t eq_refl).
    rewrite !bool_decide_eq_false_2 by lia. exec.
    rewrite bool_decide_eq_true_2 by done.
    eexists. split; [reflexivity|]. split; [reflexivity|].
    by rewrite <- !app_assoc.
  - rewrite bool_decide_eq_false_2 by done. exec.
    rewrite bool_decide_eq_true_2 by done.
    eexists. split; [reflexivity|]. split; [reflexivity|].
    by rewrite <- !app_assoc.
Qed.

(** C8.  On a started handle whose child has not exited, [process_wait] with
    a timeout of [0] returns [PROCESS_WAIT_TIMEOUT]; it makes one wait of [0]
    milliseconds, and no time passes. *)
Theorem wait_zero_polls p w c :
  started p w →
  child_of p w = Some c →
  exited c (now w) = false →
  ∃ w',
    process_wait p 0 w = Returned PROCESS_WAIT_TIMEOUT w' ∧
    now w' = now w ∧
    trace w' = trace w ++
      [ev_SetLastError 0;
       ev_WaitForSingleObject (hProcess (info p)) 0 WAIT_TIMEOUT].
Proof.
  intros Hst Hc Hrun.
  destruct (wait_running_times_out p 0 w c Hst Hc) as (w' & Hw & Hn & Ht).
  - intros t Ht. unfold exited in Hrun. rewrite Ht in Hrun.
    apply bool_decide_eq_false in Hrun. lia.
  - done.
  - done.
  - exists w'. split; [done|]. split; [lia|done].
Qed.

Lemma assert_passes c (w : world) :
  c = true → assert c w = Returned () w.
Proof. intros ->. unfold assert. by destruct NDEBUG. Qed.

Lemma deliver_break_ignored g t c :
  break_delay c = None → deliver_break g t c = c.
Proof. intros Hb. unfold deliver_break. rewrite Hb. by case_bool_decide. Qed.

Lemma deliver_break_other g t c :
  group c ≠ g → deliver_break g t c = c.
Proof. intros Hg. unfold deliver_break. by rewrite bool_decide_eq_false_2. Qed.

Lemma wait_infinite_blocks p w c :
  started p w →
  child_of p w = Some c →
  exit_time c = None →
  process_wait p INFINITE w =
    Blocked (log (ev_SetLastError 0) (set_last_error 0 w)).
Proof.
  intros (Hhp & Hpid & [i Hh] & _) Hc Hnever.
  destruct w as [hs ch le nw tr pf sf gf].
  destruct p as [si so se ci co ce [hp ht pid tid]].
  unfold child_of in Hc. cbn in Hhp, Hpid, Hh, Hc.
  exec. rewrite (nonnull_true hp) by done.
  assert (∀ x : world, (if NDEBUG then Returned () x else Returned () x)
                       = Returned () x) as Hif by by destruct NDEBUG.
  rewrite Hif. exec. rewrite Hh. rewrite Hc.
  unfold exited. rewrite Hnever.
  by rewrite bool_decide_eq_true_2 by done.
Qed.

(** C7, as amended.  On a started handle, [process_terminate] sends
    [CTRL_BREAK_EVENT] to the process group named by [dwProcessId], which is
    the child's own group.  If the sending fails, the translated platform
    error is returned and there is no wait.  If it succeeds, children of
    other groups are untouched and the result is that of [process_wait] with
    the given timeout.  For a child that ignores the signal and is still
    running when a finite timeout has elapsed, that result is
    [PROCESS_WAIT_TIMEOUT].  With the timeout [INFINITE] there is no such
    outcome: for a child that ignores the signal and never exits, the call
    does not return. *)
Theorem terminate_signals_group_then_waits p ms w :
  started p w →
  let pid := dwProcessId (info p) in
  let signal ok := ev_GenerateConsoleCtrlEvent CTRL_BREAK_EVENT pid ok in
  (∀ e, signal_fate w 0%nat = Some e →
     ∃ w',
       process_terminate p ms w =
         Returned (system_error_to_process_error (Z.pos e)) w' ∧
       trace w' = trace w ++
         [ev_SetLastError 0; signal false; ev_GetLastError (Z.pos e)]) ∧
  (signal_fate w 0%nat = None →
     ∃ w1,
       trace w1 = trace w ++ [ev_SetLastError 0; signal true] ∧
       now w1 = now w ∧ handles w1 = handles w ∧
       (∀ q c, children w !! q = Some c → group c ≠ pid →
               children w1 !! q = Some c) ∧
       process_terminate p ms w = process_wait p ms w1) ∧
  (signal_fate w 0%nat = None →
   ∀ c, child_of p w = Some c →
        break_delay c = None →
        (∀ t, exit_time c = Some t → now w + ms < t) →
        0 ≤ ms → ms ≠ INFINITE →
     ∃ w',
       process_terminate p ms w = Returned PROCESS_WAIT_TIMEOUT w' ∧
       now w' = now w + ms ∧
       trace w' = trace w ++
         [ev_SetLastError 0; signal true; ev_SetLastError 0;
          ev_WaitForSingleObject (hProcess (info p)) ms WAIT_TIMEOUT]) ∧
  (signal_fate w 0%nat = None →
   ∀ c, child_of p w = Some c →
        break_delay c = None →
        exit_time c = None →
        ms = INFINITE →
     ∃ w',
       process_terminate p ms w = Blocked w' ∧
       now w' = now w ∧
       trace w' = trace w ++
         [ev_SetLastError 0; signal true; ev_SetLastError 0]).
Proof.
  intros Hst pid signal. subst signal. cbv beta.
  pose proof Hst as (Hhp & Hpid & [i Hh] & c0 & Hc0 & Hg0).
  unfold child_of. fold pid in Hpid, Hh, Hc0, Hg0.
  assert (∀ w0, process_terminate p ms w0 =
            match GenerateConsoleCtrlEvent CTRL_BREAK_EVENT pid
                    (log (ev_SetLastError 0) (set_last_error 0 w0)) with
            | Returned true w1 => process_wait p ms w1
            | Returned false w1 =>
                Returned (system_error_to_process_error (last_error w1))
                  (log (ev_GetLastError (last_error w1)) w1)
            | Aborted w1 => Aborted w1
            | Blocked w1 => Blocked w1
            end) as Hterm.
  { intros w0. unfold process_terminate at 1.
    unfold mbind at 1, M_bind at 1. rewrite assert_passes by by apply nonnull_true.
    unfold mbind, M_bind, SetLastError, GetLastError, mret, M_ret.
    fold pid. destruct (GenerateConsoleCtrlEvent _ _ _) as [[|] w1|w1|w1]; reflexivity. }
  assert (group_exists pid w = true) as Hge.
  { unfold group_exists. rewrite Hc0.
    rewrite (bool_decide_eq_true_2 (group c0 = pid)) by done. apply orb_true_r. }
  destruct w as [hs ch le nw tr pf sf gf].
  unfold group_exists in Hge. cbn [children handles now signal_fate trace] in *.
  split; [|split; [|split]].
  - intros e He. rewrite Hterm. unfold GenerateConsoleCtrlEvent.
    exec_world. rewrite He. cbv beta iota. exec_world.
    eexists. split; [reflexivity|]. cbn [trace]. by rewrite <- !app_assoc.
  - intros Hs. rewrite Hterm. unfold GenerateConsoleCtrlEvent, group_exists.
    exec_world. rewrite Hs, Hge. cbv beta iota.
    match goal with |- context [process_wait p ms ?W = _] => exists W end.
    split; [cbn [trace]; by rewrite <- !app_assoc|].
    split; [reflexivity|]. split; [reflexivity|]. split; [|reflexivity].
    intros q c Hq Hg. cbn [children]. rewrite lookup_fmap, Hq.
    cbn. by rewrite deliver_break_other.
  - intros Hs c Hc Hb Hrun Hms Hinf. rewrite Hterm.
    unfold GenerateConsoleCtrlEvent, group_exists.
    exec_world. rewrite Hs, Hge. cbv beta iota.
    assert (c0 = c) as -> by (unfold pid in Hc0; congruence).
    match goal with
    | |- context [process_wait p ms ?w1] =>
        destruct (wait_running_times_out p ms w1 c) as (w' & Hw & Hn & Ht)
    end.
    + split; [done|]. split; [done|]. split; [by exists i|].
      exists c. split; [|done].
      cbn [children]. fold pid. rewrite lookup_fmap, Hc0. cbn.
      by rewrite deliver_break_ignored.
    + unfold child_of. cbn [children]. fold pid. rewrite lookup_fmap, Hc0. cbn.
      by rewrite deliver_break_ignored.
    + done.
    + done.
    + done.
    + exists w'. split; [done|]. split; [done|].
      cbn [trace] in Ht. rewrite <- !app_assoc in Ht. exact Ht.
  - intros Hs c Hc Hb Hnever Hinf. rewrite Hterm.
    unfold GenerateConsoleCtrlEvent, group_exists.
    exec_world. rewrite Hs, Hge. cbv beta iota.
    assert (c0 = c) as -> by (unfold pid in Hc0; congruence).
    rewrite Hinf.
    match goal with
    | |- context [process_wait p INFINITE ?w1] =>
        rewrite (wait_infinite_blocks p w1 c)
    end.
    + eexists. split; [reflexivity|]. split; [reflexivity|].
      exec_world. by rewrite <- !app_assoc.
    + split; [done|]. split; [done|]. split; [by exists i|].
      exists c. split; [|done].
      cbn [children]. fold pid. rewrite lookup_fmap, Hc0. cbn.
      by rewrite deliver_break_ignored.
    + unfold child_of. cbn [children]. fold pid. rewrite lookup_fmap, Hc0. cbn.
      by rewrite deliver_break_ignored.
    + done.
Qed.

(** C10.  [process_wait] turns every result of the wait other than
    [WAIT_TIMEOUT] and [WAIT_FAILED] into [PROCESS_SUCCESS].  A call that
    returns made one wait, with result [r], and returned
    [PROCESS_WAIT_TIMEOUT] when [r] is [WAIT_TIMEOUT], the translation of the
    last-error register, read then and only then, when [r] is [WAIT_FAILED],
    and [PROCESS_SUCCESS] otherwise.  A call that does not return either
    stopped on the assertion on [info.hProcess] or waits for ever. *)
Theorem wait_has_three_outcomes p ms w :
  (∀ r w0, r ≠ WAIT_TIMEOUT → r ≠ WAIT_FAILED →
     wait_result_to_error r w0 = Returned PROCESS_SUCCESS w0) ∧
  match process_wait p ms w with
  | Returned err w' =>
      ∃ r,
        trace w' = trace w ++
          [ev_SetLastError 0;
           ev_WaitForSingleObject (hProcess (info p)) ms r] ++
          (if bool_decide (r = WAIT_FAILED)
           then [ev_GetLastError (last_error w')] else []) ∧
        err = (if bool_decide (r = WAIT_TIMEOUT) then PROCESS_WAIT_TIMEOUT
               else if bool_decide (r = WAIT_FAILED)
                    then system_error_to_process_error (last_error w')
                    else PROCESS_SUCCESS)
  | Aborted w' => NDEBUG = false ∧ hProcess (info p) = NULL ∧ w' = w
  | Blocked w' => ms = INFINITE
  end.
Proof.
  split.
  { intros r w0 H1 H2. unfold wait_result_to_error.
    by rewrite !bool_decide_eq_false_2 by done. }
  destruct w as [hs ch le nw tr pf sf gf].
  destruct p as [si so se ci co ce [hp ht pid tid]].
  exec. destruct NDEBUG eqn:Hnd; [|unfold nonnull; case_bool_decide; cbn [negb]].
  2: { done. }
  all: exec.
  all: destruct (hs !! hp) as [[[|q|] ?]|]; exec.
  all: try destruct (ch !! q) as [c|]; exec.
  all: try (unfold exited; destruct (exit_time c) as [t|]; exec).
  all: repeat (case_bool_decide; exec).
  all: try match goal with
           | |- ∃ r, _ => eexists; split;
               [rewrite <- !app_assoc; cbn [app]; repeat f_equal; reflexivity
               |reflexivity]
           end.
  all: try done.
Qed.

Lemma start_after_init_is_started p0 w0 p1 w1 argc argv p2 w2 :
  translates_success →
  process_init p0 w0 = Returned (PROCESS_SUCCESS, p1) w1 →
  process_start p1 argc argv w1 = Returned (PROCESS_SUCCESS, p2) w2 →
  started p2 w2.
Proof.
  intros Htr Hinit Hstart.
  destruct (start_success_created _ _ _ _ _ _ Htr Hstart) as (Hcr & -> & Hth & Hph).
  destruct (process_init_success _ _ _ _ Htr Hinit) as [-> ->].
  rewrite start_checked_or_aborted in Hstart.
  destruct (NDEBUG || _); [|discriminate].
  destruct w0 as [hs ch le nw tr pf sf gf].
  unfold created, created_info in *. cbn [spawn_fate] in *.
  revert Hstart. exec_unchecked B.
  destruct (sf 0%nat) as [e|b]; [discriminate|]. exec.
  pose proof (fresh_key_pos hs) as Hpos.
  unfold pipe_handles. rewrite !fresh_key_insert.
  set (a := fresh_key hs) in *.
  repeat match goal with
         | |- context [Z.max ?x ?y] =>
             first [rewrite (Z.max_l x y) by lia | rewrite (Z.max_r x y) by lia]
         end.
  map_lookup. exec. map_lookup. exec. map_lookup. exec. map_lookup. exec.
  assert (system_error_to_process_error 0 = PROCESS_SUCCESS) as H0 by by apply Htr.
  rewrite H0. rewrite bool_decide_eq_false_2 by (intros HH; by apply HH). exec.
  intros [= _ <-]. unfold started. exec.
  pose proof (fresh_key_pos ch).
  split; [unfold NULL; lia|]. split; [lia|]. split.
  - eexists. map_lookup. reflexivity.
  - eexists. split; [apply lookup_insert_eq|]. reflexivity.
Qed.

End process_c_facts.

(** * From [process_init] to [process_free]

    How the functions fail, what they leave alone, and how they compose
    over the life of a handle. *)

Section process_c_life.
Context {B : Build}.

Lemma init_refused p w e n :
  (n < 3)%nat →
  pipe_fate w n = Some e →
  (∀ k, (k < n)%nat → pipe_fate w k = None) →
  let a := fresh_key (handles w) in
  process_init p w =
    Returned (system_error_to_process_error (Z.pos e), partly_initialised n a)
      {| handles := pipes_created n a (handles w);
         children := children w; last_error := Z.pos e; now := now w;
         trace := trace w ++ ev_SetLastError 0 ::
                  replicate n (ev_CreatePipe true) ++
                  [ev_CreatePipe false; ev_GetLastError (Z.pos e)];
         pipe_fate := λ k, pipe_fate w (S n + k)%nat;
         spawn_fate := spawn_fate w; signal_fate := signal_fate w |}.
Proof.
  intros Hn He Hbefore. destruct w as [hs ch le nw tr pf sf gf].
  cbn [pipe_fate handles children now trace spawn_fate signal_fate] in *.
  unfold partly_initialised, pipes_created.
  destruct n as [|[|[|n]]]; [| | |lia].
  - exec. rewrite He. by rewrite <- !app_assoc.
  - exec. rewrite (Hbefore 0%nat) by lia. exec. rewrite He. exec.
    by rewrite <- !app_assoc.
  - exec. rewrite (Hbefore 0%nat) by lia. exec. rewrite (Hbefore 1%nat) by lia.
    exec. rewrite He. exec.
    rewrite !fresh_key_insert.
    set (a := fresh_key hs) in *.
    repeat match goal with
           | |- context [Z.max ?x ?y] =>
               first [rewrite (Z.max_l x y) by lia | rewrite (Z.max_r x y) by lia]
           end.
    replace (a + 4 + 4 + 4) with (a + 12) by lia.
    replace (a + 4 + 4) with (a + 8) by lia.
    by rewrite <- !app_assoc.
Qed.

Lemma pipes_created_size n a (m : gmap Z hentry) :
  (n < 3)%nat → a = fresh_key m →
  size (pipes_created n a m) = (size m + 2 * n)%nat.
Proof.
  intros Hn ->. pose proof (fresh_key_free m) as Hfree.
  assert (m !! fresh_key m = None) as Hfree0.
  { rewrite <- (Z.add_0_r (fresh_key _)). by apply Hfree. }
  destruct n as [|[|[|n]]]; [| | |lia]; unfold pipes_created.
  - lia.
  - rewrite !map_size_insert_None; [lia|done|].
    rewrite lookup_insert_ne by lia. apply Hfree. lia.
  - rewrite !map_size_insert_None; [lia|done| | |].
    all: rewrite !lookup_insert_ne by lia; apply Hfree; lia.
Qed.

(** X1.  How [process_init] fails.  When the system refuses one of the three
    pipes, the pipes before it having been granted, no further pipe is asked
    for, and the call returns the translation of the code of the refused
    call, which is what the last-error register then holds.  The pipes
    created before the refusal stay open, two handles each, and their
    endpoints are in the handle; the endpoints of the refused pipe and of the
    pipes after it are [NULL], and [info] is all zero.  No child is
    touched. *)
Theorem init_reports_first_refusal p w e n :
  (n < 3)%nat →
  pipe_fate w n = Some e →
  (∀ k, (k < n)%nat → pipe_fate w k = None) →
  ∃ w',
    process_init p w =
      Returned (system_error_to_process_error (Z.pos e),
                partly_initialised n (fresh_key (handles w))) w' ∧
    last_error w' = Z.pos e ∧
    trace w' = trace w ++ ev_SetLastError 0 ::
      replicate n (ev_CreatePipe true) ++
      [ev_CreatePipe false; ev_GetLastError (Z.pos e)] ∧
    size (handles w') = (size (handles w) + 2 * n)%nat ∧
    children w' = children w.
Proof.
  intros Hn He Hbefore. eexists. split; [by apply init_refused|].
  cbn [last_error trace handles children]. split_and!; try done.
  by apply pipes_created_size.
Qed.

(** X5.  [process_free] on any handle, in any world, returns, and what it
    returns is the translation of the last-error register, which then holds
    [0] or [ERROR_INVALID_HANDLE].  After it, none of [stdin], [stdout],
    [stderr] and [info.hProcess] that is not [NULL] is an open handle.  The
    call opens no handle (the table can only shrink), touches no child and
    takes no time. *)
Theorem free_releases_what_it_holds p w :
  ∃ w',
    process_free p w = Returned (system_error_to_process_error (last_error w')) w' ∧
    (last_error w' = 0 ∨ last_error w' = ERROR_INVALID_HANDLE) ∧
    (stdin p ≠ NULL → handles w' !! stdin p = None) ∧
    (stdout p ≠ NULL → handles w' !! stdout p = None) ∧
    (stderr p ≠ NULL → handles w' !! stderr p = None) ∧
    (hProcess (info p) ≠ NULL → handles w' !! hProcess (info p) = None) ∧
    (∀ h x, handles w' !! h = Some x → handles w !! h = Some x) ∧
    children w' = children w ∧ now w' = now w.
Proof.
  destruct w as [hs ch le nw tr pf sf gf].
  destruct p as [i o e ci co ce [hp ht pid tid]].
  exec. unfold nonnull.
  repeat (case_bool_decide; cbn [negb]; exec; closes).
  all: match goal with |- ∃ w', Returned _ ?W = _ ∧ _ => exists W end.
  all: split; [reflexivity|].
  all: split; [auto|].
  all: split_and!; try done; try (intros; closed).
  all: intros key val Hkey; cbn [handles] in Hkey.
  all: repeat (apply lookup_delete_Some in Hkey as [_ Hkey]).
  all: exact Hkey.
Qed.

(** X6.  [process_free] closes the references that are not [NULL], and
    nothing else.  When those of [stdin], [stdout], [stderr] and
    [info.hProcess] that are not [NULL] are different open handles, the calls
    it makes are [SetLastError (0)], one successful [CloseHandle] for each of
    them, in that order, and [GetLastError]; it returns the translation of
    [0].  No child-side endpoint and no thread reference is ever passed to
    [CloseHandle]. *)
Theorem free_skips_null_fields p w :
  let refs := filter (λ h, h ≠ NULL)
                [stdin p; stdout p; stderr p; hProcess (info p)] in
  NoDup refs →
  Forall (λ h, is_Some (handles w !! h)) refs →
  ∃ w',
    process_free p w = Returned (system_error_to_process_error 0) w' ∧
    trace w' = trace w ++
      ev_SetLastError 0 :: ((λ h, ev_CloseHandle h true) <$> refs) ++
      [ev_GetLastError 0].
Proof.
  destruct w as [hs ch le nw tr pf sf gf].
  destruct p as [i o e ci co ce [hp ht pid tid]].
  cbn [stdin stdout stderr info hProcess handles trace]. unfold NULL.
  rewrite !filter_cons, filter_nil.
  destruct (decide (i ≠ 0)) as [Hi|Hi]; [|apply dec_stable in Hi];
  destruct (decide (o ≠ 0)) as [Ho|Ho]; [|apply dec_stable in Ho| |apply dec_stable in Ho];
  destruct (decide (e ≠ 0)) as [He|He]; try apply dec_stable in He;
  destruct (decide (hp ≠ 0)) as [Hp|Hp]; try apply dec_stable in Hp.
  all: rewrite ?NoDup_cons, ?Forall_cons, ?not_elem_of_cons.
  all: intros Hnd Hopen; destruct_and?.
  all: repeat match goal with H : is_Some _ |- _ => destruct H end.
  all: subst; exec; rewrite ?nonnull_0; rewrite ?nonnull_true by done; exec.
  all: repeat (rewrite ?lookup_delete_ne by done;
               match goal with
               | H : ?m !! ?h = Some _ |- context [?m !! ?h] => rewrite H
               end; exec).
  all: eexists; split; [reflexivity|].
  all: cbn [fmap list_fmap]; by rewrite <- !app_assoc.
Qed.

Lemma first_refusal (pf : nat → option positive) :
  (pf 0%nat = None ∧ pf 1%nat = None ∧ pf 2%nat = None) ∨
  ∃ n e, (n < 3)%nat ∧ pf n = Some e ∧ ∀ k, (k < n)%nat → pf k = None.
Proof.
  destruct (pf 0%nat) as [e|] eqn:E0.
  { right. exists 0%nat, e. split; [lia|]. split; [done|]. intros; lia. }
  destruct (pf 1%nat) as [e|] eqn:E1.
  { right. exists 1%nat, e. split; [lia|]. split; [done|].
    intros [|k] ?; [done|lia]. }
  destruct (pf 2%nat) as [e|] eqn:E2.
  { right. exists 2%nat, e. split; [lia|]. split; [done|].
    intros [|[|k]] ?; [done|done|lia]. }
  by left.
Qed.

Lemma init_granted_succeeds p w :
  pipe_fate w 0%nat = None → pipe_fate w 1%nat = None →
  pipe_fate w 2%nat = None →
  ∃ p' w', process_init p w = Returned (system_error_to_process_error 0, p') w'.
Proof.
  destruct w as [hs ch le nw tr pf sf gf]. cbn [pipe_fate].
  intros H0 H1 H2. exec. rewrite H0. exec. rewrite H1. exec. rewrite H2. exec.
  by eexists _, _.
Qed.

(** X7.  After a [process_init] that returned an error, [process_free] on the
    handle that it left returns [PROCESS_SUCCESS] and none of the calls it
    makes fails: the parent-side endpoints created before the failure are
    closed, and the fields never reached ([stderr], the process reference)
    are [NULL] and skipped.  For a translation in which [0] alone is
    success. *)
Theorem free_after_failed_init_succeeds p w err p' w' :
  translates_success →
  process_init p w = Returned (err, p') w' →
  err ≠ PROCESS_SUCCESS →
  ∃ w2,
    process_free p' w' = Returned PROCESS_SUCCESS w2 ∧
    Forall (λ ev, failing ev = false) (since (length (trace w')) w2) ∧
    (stdin p' ≠ NULL → handles w2 !! stdin p' = None) ∧
    (stdout p' ≠ NULL → handles w2 !! stdout p' = None) ∧
    stderr p' = NULL ∧ hProcess (info p') = NULL.
Proof.
  intros Htr Hinit Herr.
  assert (system_error_to_process_error 0 = PROCESS_SUCCESS) as H0 by by apply Htr.
  destruct (first_refusal (pipe_fate w)) as [(E0 & E1 & E2)|(n & e & Hn & He & Hb)].
  { destruct (init_granted_succeeds p w E0 E1 E2) as (p1 & w1 & Hi).
    rewrite Hi in Hinit. injection Hinit as <- _ _. by rewrite H0 in Herr. }
  rewrite (init_refused p w e n Hn He Hb) in Hinit.
  injection Hinit as _ <- <-.
  destruct w as [hs ch le nw tr pf sf gf].
  cbn [handles children now trace spawn_fate signal_fate pipe_fate] in *.
  pose proof (fresh_key_pos hs) as Hpos.
  unfold partly_initialised, pipes_created, since.
  destruct n as [|[|[|n]]]; [| | |lia]; exec; unfold nonnull;
    set (a := fresh_key hs) in *.
  all: repeat (case_bool_decide; try lia); cbn [negb]; exec.
  all: map_lookup; exec; map_lookup; exec; rewrite H0.
  all: eexists; split; [reflexivity|]; cbn [trace handles].
  all: match goal with |- context [length ?t] => set (t0 := t) end.
  all: rewrite <- ?app_assoc, drop_app_length.
  all: split; [repeat constructor|].
  all: split_and!; try done; intros _; map_lookup; reflexivity.
Qed.

Lemma start_after_init p0 w0 p1 w1 argc argv err p2 w2 :
  translates_success →
  handles w0 !! NULL = None →
  process_init p0 w0 = Returned (PROCESS_SUCCESS, p1) w1 →
  process_start p1 argc argv w1 = Returned (err, p2) w2 →
  let a := fresh_key (handles w0) in
  let pid := fresh_key (children w0) in
  now w2 = now w0 ∧
  match spawn_fate w0 0%nat with
  | inl e =>
      err = system_error_to_process_error (Z.pos e) ∧ p2 = p1 ∧
      handles w2 = parent_handles a (handles w0) ∧
      children w2 = children w0 ∧
      last_error w2 = ERROR_INVALID_HANDLE
  | inr b =>
      err = PROCESS_SUCCESS ∧
      p2 = set_info {| hProcess := a + 24; hThread := a + 28;
                       dwProcessId := pid; dwThreadId := pid + 2 |} p1 ∧
      handles w2 =
        <[a + 24 := {| object := ProcessObj pid; inheritable := false |}]>
          (parent_handles a (handles w0)) ∧
      children w2 =
        <[pid := {| group := pid; exit_time := (λ d, now w0 + d) <$> lifetime b;
                    break_delay := on_break b |}]> (children w0) ∧
      last_error w2 = 0
  end.
Proof.
  intros Htr Hnull Hinit Hstart.
  destruct (process_init_success _ _ _ _ Htr Hinit) as [-> ->].
  rewrite start_checked_or_aborted in Hstart.
  destruct (NDEBUG || _); [|discriminate].
  destruct w0 as [hs ch le nw tr pf sf gf].
  cbn [spawn_fate handles children now] in *. unfold NULL in Hnull.
  pose proof (fresh_key_pos hs) as Hpos.
  pose proof (fresh_key_free hs) as Hfree.
  assert (hs !! fresh_key hs = None) as Hfree0.
  { rewrite <- (Z.add_0_r (fresh_key _)). by apply Hfree. }
  assert (system_error_to_process_error 0 = PROCESS_SUCCESS) as H0 by by apply Htr.
  revert Hstart. exec_unchecked B.
  unfold pipe_handles, parent_handles. rewrite ?fresh_key_insert.
  set (a := fresh_key hs) in *.
  repeat match goal with
         | |- context [Z.max ?x ?y] =>
             first [rewrite (Z.max_l x y) by lia | rewrite (Z.max_r x y) by lia]
         end.
  replace (a + 20 + 4 + 4) with (a + 28) by lia.
  replace (a + 20 + 4) with (a + 24) by lia.
  destruct (sf 0%nat) as [e|b]; exec.
  - map_lookup. exec. map_lookup. exec. map_lookup. exec.
    rewrite (bool_decide_eq_true_2 (_ ≠ PROCESS_SUCCESS))
      by (intros HH; by apply Htr in HH).
    rewrite Hnull. exec. intros [= <- <- <-]. cbn [handles children last_error now].
    undo_inserts. split_and!; reflexivity.
  - change (Z.testbit CREATION_FLAGS 9) with true. cbv iota.
    map_lookup. exec. map_lookup. exec. map_lookup. exec. map_lookup. exec.
    rewrite H0. rewrite bool_decide_eq_false_2 by (intros HH; by apply HH). exec.
    rewrite ?H0. intros [= <- <- <-]; cbn [handles children last_error now].
    undo_inserts. split_and!; reflexivity.
Qed.

(** X8.  A whole life of a handle: [process_init] succeeds, [process_start]
    returns (with the process created or not), then [process_free].  The
    release returns [PROCESS_SUCCESS] and the handle table of the parent is
    again what it was before [process_init]: the six endpoints, the thread
    reference and the process reference have all been closed, by
    [process_start] and [process_free] together.  For a translation in which
    [0] alone is success, and a world in which [NULL] is not an open
    handle. *)
Theorem init_start_free_restores_handle_table p0 w0 p1 w1 argc argv err p2 w2 :
  translates_success →
  handles w0 !! NULL = None →
  process_init p0 w0 = Returned (PROCESS_SUCCESS, p1) w1 →
  process_start p1 argc argv w1 = Returned (err, p2) w2 →
  ∃ w3,
    process_free p2 w2 = Returned PROCESS_SUCCESS w3 ∧
    handles w3 = handles w0.
Proof.
  intros Htr Hnull Hinit Hstart.
  destruct (start_after_init _ _ _ _ _ _ _ _ _ Htr Hnull Hinit Hstart) as [_ Hrun].
  destruct (process_init_success _ _ _ _ Htr Hinit) as [-> _].
  assert (system_error_to_process_error 0 = PROCESS_SUCCESS) as H0 by by apply Htr.
  pose proof (fresh_key_pos (handles w0)) as Hpos.
  pose proof (fresh_key_free (handles w0)) as Hfree.
  destruct w2 as [hs2 ch2 le2 nw2 tr2 pf2 sf2 gf2].
  destruct w0 as [hs ch le nw tr pf sf gf].
  cbn [handles children last_error now spawn_fate] in *.
  set (a := fresh_key hs) in *.
  destruct (sf 0%nat) as [e|b].
  - destruct Hrun as (_ & -> & -> & _ & _). unfold parent_handles.
    exec. rewrite !nonnull_true by lia. rewrite nonnull_0. exec.
    map_lookup. exec. map_lookup. exec. map_lookup. exec. rewrite H0.
    eexists. split; [reflexivity|]. cbn [handles]. by undo_inserts.
  - destruct Hrun as (_ & -> & -> & _ & _). unfold parent_handles.
    exec. rewrite !nonnull_true by lia. exec.
    map_lookup. exec. map_lookup. exec. map_lookup. exec. map_lookup. exec.
    rewrite H0.
    eexists. split; [reflexivity|]. cbn [handles]. by undo_inserts.
Qed.

(** X3.  [process_start] on a handle that [process_init] has just filled
    leaves the parent-side endpoints alone: the fields [stdin], [stdout] and
    [stderr] are unchanged and name the same open handles as before, whether
    the process was created or not.  The thread reference is not an open
    handle when the call returns.  If the process was created, the call
    returns [PROCESS_SUCCESS] and the handle is started, under a process id
    that no child had before; if it was not, the call returns an error,
    [info] is still all zero and there is no new child.  For a translation
    in which [0] alone is success, and a world in which [NULL] is not an open
    handle. *)
Theorem start_after_init_keeps_parent_endpoints p0 w0 p1 w1 argc argv err p2 w2 :
  translates_success →
  handles w0 !! NULL = None →
  process_init p0 w0 = Returned (PROCESS_SUCCESS, p1) w1 →
  process_start p1 argc argv w1 = Returned (err, p2) w2 →
  (stdin p2, stdout p2, stderr p2) = (stdin p1, stdout p1, stderr p1) ∧
  handles w2 !! stdin p1 = handles w1 !! stdin p1 ∧
  handles w2 !! stdout p1 = handles w1 !! stdout p1 ∧
  handles w2 !! stderr p1 = handles w1 !! stderr p1 ∧
  Forall (λ h, is_Some (handles w2 !! h)) [stdin p1; stdout p1; stderr p1] ∧
  handles w2 !! hThread (info p2) = None ∧
  (if created w1
   then err = PROCESS_SUCCESS ∧ started p2 w2 ∧
        children w0 !! dwProcessId (info p2) = None
   else err ≠ PROCESS_SUCCESS ∧ info p2 = zero_info ∧ children w2 = children w0).
Proof.
  intros Htr Hnull Hinit Hstart.
  destruct (start_after_init _ _ _ _ _ _ _ _ _ Htr Hnull Hinit Hstart) as [_ Hrun].
  destruct (process_init_success _ _ _ _ Htr Hinit) as [-> ->].
  destruct w0 as [hs ch le nw tr pf sf gf].
  destruct w2 as [hs2 ch2 le2 nw2 tr2 pf2 sf2 gf2].
  pose proof (fresh_key_pos hs) as Hpos.
  pose proof (fresh_key_free hs) as Hfree.
  pose proof (fresh_key_pos ch) as Hpid.
  pose proof (fresh_key_free ch 0) as Hnew.
  rewrite Z.add_0_r in Hnew.
  unfold created. cbn [spawn_fate handles children last_error now] in *.
  set (a := fresh_key hs) in *.
  destruct (sf 0%nat) as [e|b].
  - destruct Hrun as (-> & -> & -> & -> & _).
    unfold parent_handles, pipe_handles. exec.
    split; [reflexivity|]. split_and!; try reflexivity.
    + by map_lookup.
    + by map_lookup.
    + by map_lookup.
    + repeat constructor; map_lookup; eauto.
    + by rewrite !lookup_insert_ne by (unfold NULL; lia).
    + intros HH. by apply Htr in HH.
  - destruct Hrun as (-> & -> & -> & Hch & _).
    unfold parent_handles, pipe_handles, started. exec.
    split; [reflexivity|]. split_and!; try reflexivity.
    + by map_lookup.
    + by map_lookup.
    + by map_lookup.
    + repeat constructor; map_lookup; eauto.
    + rewrite !lookup_insert_ne by lia. apply Hfree. lia.
    + unfold NULL. lia.
    + lia.
    + eexists. by map_lookup.
    + eexists. rewrite Hch. split; [apply lookup_insert_eq|reflexivity].
    + by apply Hnew.
Qed.

(** X10.  This is not so for [process_start].  When [CreateProcessW] is
    refused with code [e] on a handle that [process_init] has just filled,
    [process_start] returns the translation of [e], but
    [process_system_error] called right after it yields
    [ERROR_INVALID_HANDLE]: the code left by [CloseHandle] on the thread
    reference, which is [NULL].  For a translation in which [0] alone is
    success, and a world in which [NULL] is not an open handle. *)
Theorem system_error_after_failed_start p0 w0 p1 w1 argc argv err p2 w2 e :
  translates_success →
  handles w0 !! NULL = None →
  process_init p0 w0 = Returned (PROCESS_SUCCESS, p1) w1 →
  spawn_fate w1 0%nat = inl e →
  process_start p1 argc argv w1 = Returned (err, p2) w2 →
  err = system_error_to_process_error (Z.pos e) ∧
  ∃ w3, process_system_error w2 = Returned ERROR_INVALID_HANDLE w3.
Proof.
  intros Htr Hnull Hinit Hsp Hstart.
  destruct (start_after_init _ _ _ _ _ _ _ _ _ Htr Hnull Hinit Hstart) as [_ Hrun].
  destruct (process_init_success _ _ _ _ Htr Hinit) as [_ ->].
  cbn [spawn_fate] in Hsp. rewrite Hsp in Hrun.
  destruct Hrun as (-> & _ & _ & _ & Hle). split; [done|].
  unfold process_system_error, GetLastError. rewrite Hle. by eexists.
Qed.

(** X2.  When [process_init] returns [PROCESS_SUCCESS], the three endpoints
    that stay with the parent ([stdin], [stdout], [stderr]) are the ones it
    named to [pipe_init] as not to be inherited, and they are not
    inheritable; the three child-side endpoints are inheritable.  For a
    translation of platform errors in which [0] alone is success. *)
Theorem init_marks_parent_ends_private p w p' w' :
  translates_success →
  process_init p w = Returned (PROCESS_SUCCESS, p') w' →
  Forall (λ h, inheritable <$> handles w' !! h = Some false)
         [stdin p'; stdout p'; stderr p'] ∧
  Forall (λ h, inheritable <$> handles w' !! h = Some true)
         [child_stdin p'; child_stdout p'; child_stderr p'].
Proof.
  intros Htr Hinit.
  destruct (process_init_success _ _ _ _ Htr Hinit) as [-> ->].
  pose proof (fresh_key_pos (handles w)) as Hpos.
  set (a := fresh_key (handles w)) in *.
  unfold pipe_handles. exec.
  split; repeat constructor; map_lookup; reflexivity.
Qed.

Lemma wait_exited_run p ms w c :
  started p w →
  child_of p w = Some c →
  exited c (now w) = true →
  process_wait p ms w =
    Returned PROCESS_SUCCESS
      (log (ev_WaitForSingleObject (hProcess (info p)) ms WAIT_OBJECT_0)
         (log (ev_SetLastError 0) (set_last_error 0 w))).
Proof.
  intros (Hhp & Hpid & [i Hh] & _) Hc Hex.
  destruct w as [hs ch le nw tr pf sf gf].
  destruct p as [si so se ci co ce [hp ht pid tid]].
  unfold child_of in Hc. cbn in Hhp, Hpid, Hh, Hc, Hex.
  exec. rewrite (nonnull_true hp) by done.
  assert (∀ x : world, (if NDEBUG then Returned () x else Returned () x)
                       = Returned () x) as Hif by by destruct NDEBUG.
  rewrite Hif. exec. rewrite Hh, Hc, Hex. exec.
  rewrite !bool_decide_eq_false_2 by done. reflexivity.
Qed.

(** X11.  On a started handle whose child has exited, [process_wait] returns
    [PROCESS_SUCCESS] for every timeout, [INFINITE] included, and no time
    passes; it makes one wait call and does not read the last-error
    register. *)
Theorem wait_on_exited_child_returns_at_once p ms w c :
  started p w →
  child_of p w = Some c →
  exited c (now w) = true →
  ∃ w',
    process_wait p ms w = Returned PROCESS_SUCCESS w' ∧
    now w' = now w ∧
    trace w' = trace w ++
      [ev_SetLastError 0;
       ev_WaitForSingleObject (hProcess (info p)) ms WAIT_OBJECT_0].
Proof.
  intros Hst Hc Hex. rewrite (wait_exited_run p ms w c Hst Hc Hex).
  eexists. split; [reflexivity|]. destruct w. exec_world.
  split; [reflexivity|]. by rewrite <- app_assoc.
Qed.

(** X12.  [process_wait] on a process reference that is not [NULL] and is not
    an open handle (after [process_free], for one) returns the translation of
    [ERROR_INVALID_HANDLE]: the wait fails, and the register is read after
    it.  No time passes and neither the children nor the handles change. *)
Theorem wait_on_closed_reference_fails p ms w :
  hProcess (info p) ≠ NULL →
  handles w !! hProcess (info p) = None →
  ∃ w',
    process_wait p ms w =
      Returned (system_error_to_process_error ERROR_INVALID_HANDLE) w' ∧
    trace w' = trace w ++
      [ev_SetLastError 0;
       ev_WaitForSingleObject (hProcess (info p)) ms WAIT_FAILED;
       ev_GetLastError ERROR_INVALID_HANDLE] ∧
    now w' = now w ∧ children w' = children w ∧ handles w' = handles w.
Proof.
  intros Hhp Hh.
  destruct w as [hs ch le nw tr pf sf gf].
  destruct p as [si so se ci co ce [hp ht pid tid]].
  cbn in Hhp, Hh.
  exec. rewrite (nonnull_true hp) by done.
  assert (∀ x : world, (if NDEBUG then Returned () x else Returned () x)
                       = Returned () x) as Hif by by destruct NDEBUG.
  rewrite Hif. exec. rewrite Hh. exec.
  rewrite (bool_decide_eq_false_2 (WAIT_FAILED = WAIT_TIMEOUT)) by done.
  rewrite (bool_decide_eq_true_2 (WAIT_FAILED = WAIT_FAILED)) by done. exec.
  eexists. split; [reflexivity|]. split; [by rewrite <- !app_assoc|done].
Qed.

(** X13.  With a timeout [ms] that is not [INFINITE], [process_wait] never
    blocks.  When it returns, whatever it returns, time has not gone back and
    at most [ms] milliseconds have passed.  The only other outcome is the
    failed assertion on a [NULL] process reference, in a build with
    assertions, before any call is made. *)
Theorem finite_wait_is_bounded p ms w :
  0 ≤ ms → ms ≠ INFINITE →
  match process_wait p ms w with
  | Returned _ w' => now w ≤ now w' ≤ now w + ms
  | Aborted w' => NDEBUG = false ∧ hProcess (info p) = NULL ∧ w' = w
  | Blocked _ => False
  end.
Proof.
  intros Hms Hinf.
  destruct w as [hs ch le nw tr pf sf gf].
  destruct p as [si so se ci co ce [hp ht pid tid]].
  exec. destruct NDEBUG eqn:Hnd; [|unfold nonnull; case_bool_decide; cbn [negb]].
  2: { done. }
  all: exec.
  all: destruct (hs !! hp) as [[[|q|] ?]|]; exec.
  all: try destruct (ch !! q) as [c|]; exec.
  all: try (unfold exited; destruct (exit_time c) as [t|]; exec).
  all: repeat (case_bool_decide; exec).
  all: lia.
Qed.

Lemma keeps_handles_ret {A} (a : A) : keeps_handles (mret a).
Proof. by intros w. Qed.

Lemma keeps_handles_bind {A C} (m : M A) (k : A → M C) :
  keeps_handles m → (∀ a, keeps_handles (k a)) → keeps_handles (m ≫= k).
Proof.
  intros Hm Hk w. specialize (Hm w). unfold mbind, M_bind.
  destruct (m w) as [a w1|w1|w1]; cbn [final] in *; [|done|done].
  by rewrite Hk.
Qed.

Lemma keeps_handles_assert c : keeps_handles (assert c).
Proof. intros w. unfold assert. by destruct NDEBUG, c. Qed.

Lemma keeps_handles_SetLastError e : keeps_handles (SetLastError e).
Proof. by intros []. Qed.

Lemma keeps_handles_GetLastError : keeps_handles GetLastError.
Proof. by intros []. Qed.

Lemma keeps_handles_WaitForSingleObject h ms :
  keeps_handles (WaitForSingleObject h ms).
Proof.
  intros [hs ch le nw tr pf sf gf]. exec.
  destruct (hs !! h) as [[[|q|] ?]|]; exec; try reflexivity.
  destruct (ch !! q) as [c|]; exec; try reflexivity.
  destruct (exited c nw); exec; try reflexivity.
  destruct (exit_time c); repeat (case_bool_decide; exec); reflexivity.
Qed.

Lemma keeps_handles_GenerateConsoleCtrlEvent ev g :
  keeps_handles (GenerateConsoleCtrlEvent ev g).
Proof.
  intros [hs ch le nw tr pf sf gf]. exec.
  destruct (gf 0%nat); exec; try reflexivity.
  destruct (group_exists _ _); reflexivity.
Qed.

Lemma keeps_handles_TerminateProcess h code :
  keeps_handles (TerminateProcess h code).
Proof.
  intros [hs ch le nw tr pf sf gf]. exec.
  destruct (hs !! h) as [[[|q|] ?]|]; exec; try reflexivity.
  destruct (ch !! q) as [c|]; exec; try reflexivity.
  destruct (exited c nw); reflexivity.
Qed.

Lemma keeps_handles_wait p ms : keeps_handles (process_wait p ms).
Proof.
  unfold process_wait, wait_result_to_error.
  repeat (apply keeps_handles_bind; [|intros ?]);
    auto using keeps_handles_assert, keeps_handles_SetLastError,
      keeps_handles_WaitForSingleObject.
  repeat case_bool_decide; try apply keeps_handles_ret.
  apply keeps_handles_bind; [apply keeps_handles_GetLastError|intros ?].
  apply keeps_handles_ret.
Qed.

(** X14.  [process_wait], [process_terminate] and [process_kill] neither open
    nor close a handle: however they end, the handle table is the one they
    found.  The process reference of a child that was killed is still open;
    closing it is left to [process_free]. *)
Theorem wait_terminate_kill_keep_handles p ms :
  keeps_handles (process_wait p ms) ∧
  keeps_handles (process_terminate p ms) ∧
  keeps_handles (process_kill p ms).
Proof.
  split; [apply keeps_handles_wait|]. split.
  - unfold process_terminate.
    repeat (apply keeps_handles_bind; [|intros ?]);
      auto using keeps_handles_assert, keeps_handles_SetLastError,
        keeps_handles_GenerateConsoleCtrlEvent.
    destruct (negb _); [|apply keeps_handles_wait].
    apply keeps_handles_bind; [apply keeps_handles_GetLastError|intros ?].
    apply keeps_handles_ret.
  - unfold process_kill.
    repeat (apply keeps_handles_bind; [|intros ?]);
      auto using keeps_handles_assert, keeps_handles_SetLastError,
        keeps_handles_TerminateProcess.
    destruct (negb _); [|apply keeps_handles_wait].
    apply keeps_handles_bind; [apply keeps_handles_GetLastError|intros ?].
    apply keeps_handles_ret.
Qed.




(** X16.  On a started handle whose child has exited, [process_kill] returns
    the translation of [ERROR_ACCESS_DENIED], the code of the refused
    [TerminateProcess], and does not wait; nothing else changes. *)
Theorem kill_exited_child_is_refused p ms w c :
  started p w →
  child_of p w = Some c →
  exited c (now w) = true →
  ∃ w',
    process_kill p ms w =
      Returned (system_error_to_process_error ERROR_ACCESS_DENIED) w' ∧
    trace w' = trace w ++
      [ev_SetLastError 0; ev_TerminateProcess (hProcess (info p)) false;
       ev_GetLastError ERROR_ACCESS_DENIED] ∧
    children w' = children w ∧ now w' = now w.
Proof.
  intros (Hhp & Hpid & [i Hh] & _) Hc Hex.
  destruct w as [hs ch le nw tr pf sf gf].
  destruct p as [si so se ci co ce [hp ht pid tid]].
  unfold child_of in Hc. cbn in Hhp, Hpid, Hh, Hc, Hex.
  assert (∀ x : world, (if NDEBUG then Returned () x else Returned () x)
                       = Returned () x) as Hif by by destruct NDEBUG.
  exec. rewrite (nonnull_true hp) by done. rewrite Hif. exec.
  rewrite Hh, Hc, Hex. exec.
  eexists. split; [reflexivity|]. split; [by rewrite <- !app_assoc|done].
Qed.





Lemma init_returns_register p w :
  ∃ p' w',
    process_init p w =
      Returned (system_error_to_process_error (last_error w'), p') w'.
Proof.
  destruct w as [hs ch le nw tr pf sf gf]. exec.
  destruct (pf 0%nat); exec; [|destruct (pf 1%nat); exec;
                                  [|destruct (pf 2%nat); exec]].
  all: match goal with
       | |- ∃ p' w', Returned (_, ?P) ?W = _ => exists P, W
       end.
  all: reflexivity.
Qed.

Lemma free_returns_register p w :
  ∃ w',
    process_free p w = Returned (system_error_to_process_error (last_error w')) w'.
Proof.
  destruct w as [hs ch le nw tr pf sf gf].
  destruct p as [i o e ci co ce [hp ht pid tid]].
  exec. unfold nonnull.
  repeat (case_bool_decide; cbn [negb]; exec; closes).
  all: match goal with |- ∃ w', Returned _ ?W = _ => exists W end.
  all: reflexivity.
Qed.

(** X9.  [process_init] and [process_free] always return, and what they
    return is the translation of the code that [process_system_error] yields
    when it is called right after them. *)
Theorem system_error_explains_init_and_free p w :
  (∃ err p' w' e w'',
     process_init p w = Returned (err, p') w' ∧
     process_system_error w' = Returned e w'' ∧
     err = system_error_to_process_error e) ∧
  (∃ err w' e w'',
     process_free p w = Returned err w' ∧
     process_system_error w' = Returned e w'' ∧
     err = system_error_to_process_error e).
Proof.
  split.
  - destruct (init_returns_register p w) as (p' & w' & ->).
    by eexists _, _, _, _, _.
  - destruct (free_returns_register p w) as (w' & ->).
    by eexists _, _, _, _.
Qed.

(** X4.  [process_start] never undoes a creation.  Whatever it returns, the
    error of a failed close included, the children after the call are those
    before it and, when [CreateProcessW] succeeded, the new child, whose id
    is in [dwProcessId] and which leads a process group of its own; when
    [CreateProcessW] failed, [info] and the children are as before.  No time
    passes.  The only other outcome is a failed assertion, which leaves the
    world untouched; the call never blocks. *)
Theorem start_never_undoes_creation p argc argv w :
  match process_start p argc argv w with
  | Returned (err, p') w' =>
      now w' = now w ∧
      match spawn_fate w 0%nat with
      | inl _ => info p' = info p ∧ children w' = children w
      | inr b =>
          let pid := fresh_key (children w) in
          dwProcessId (info p') = pid ∧
          children w !! pid = None ∧
          children w' =
            <[pid := {| group := pid;
                        exit_time := (λ d, now w + d) <$> lifetime b;
                        break_delay := on_break b |}]> (children w)
      end
  | Aborted w' => w' = w
  | Blocked _ => False
  end.
Proof.
  rewrite start_checked_or_aborted.
  destruct (NDEBUG || _); [|done].
  destruct w as [hs ch le nw tr pf sf gf].
  destruct p as [i o e ci co ce [hp ht pid tid]].
  pose proof (fresh_key_free ch 0) as Hnew. rewrite Z.add_0_r in Hnew.
  exec_unchecked B.
  destruct (sf 0%nat) as [err|b]; exec.
  - closes. all: case_bool_decide; exec. all: done.
  - change (Z.testbit CREATION_FLAGS 9) with true. cbv iota.
    closes. all: case_bool_decide; exec.
    all: split; [reflexivity|]. all: split; [reflexivity|].
    all: split; [by apply Hnew|reflexivity].
Qed.
End process_c_life.

(** * Runs on concrete machines *)

Lemma least_translation_success (B : Build) :
  @system_error_to_process_error B = least_translation →
  @translates_success B.
Proof.
  intros Heq e. rewrite Heq.
  unfold least_translation, ERROR_SUCCESS, ERROR_INVALID_HANDLE.
  repeat case_bool_decide; split; (done || lia).
Qed.

Lemma release_build_translates : @translates_success release_build.
Proof. by apply least_translation_success. Qed.

Lemma debug_build_translates : @translates_success debug_build.
Proof. by apply least_translation_success. Qed.

Lemma init_creates_six_distinct_endpoints_witness :
  @translates_success release_build ∧
  @process_init release_build blank quiet_world =
    Returned (PROCESS_SUCCESS, initialised) (@after_init release_build quiet_world) ∧
  NoDup (endpoints initialised).*1 ∧
  Forall (λ he, he.1 ≠ NULL ∧ handles quiet_world !! he.1 = None ∧
                object <$> handles (@after_init release_build quiet_world) !! he.1
                  = Some (PipeEnd he.2))
         (endpoints initialised).
Proof.
  assert (@process_init release_build blank quiet_world =
            Returned (PROCESS_SUCCESS, initialised)
              (@after_init release_build quiet_world)) as Hinit
    by (vm_compute; reflexivity).
  split; [exact release_build_translates|]. split; [exact Hinit|].
  exact (@init_creates_six_distinct_endpoints release_build _ _ _ _
           release_build_translates Hinit).
Defined.

Lemma free_once_after_init_then_repeats_witness :
  @translates_success release_build ∧
  @process_init release_build blank quiet_world =
    Returned (PROCESS_SUCCESS, initialised) (@after_init release_build quiet_world) ∧
  ∃ w1 w2,
    @process_free release_build initialised (@after_init release_build quiet_world)
      = Returned PROCESS_SUCCESS w1 ∧
    trace w1 = trace (@after_init release_build quiet_world) ++
      [ev_SetLastError 0; ev_CloseHandle (stdin initialised) true;
       ev_CloseHandle (stdout initialised) true;
       ev_CloseHandle (stderr initialised) true; ev_GetLastError 0] ∧
    @process_free release_build initialised w1 =
      Returned (@system_error_to_process_error release_build ERROR_INVALID_HANDLE) w2 ∧
    trace w2 = trace w1 ++
      [ev_SetLastError 0; ev_CloseHandle (stdin initialised) false;
       ev_CloseHandle (stdout initialised) false;
       ev_CloseHandle (stderr initialised) false;
       ev_GetLastError ERROR_INVALID_HANDLE].
Proof.
  assert (@process_init release_build blank quiet_world =
            Returned (PROCESS_SUCCESS, initialised)
              (@after_init release_build quiet_world)) as Hinit
    by (vm_compute; reflexivity).
  split; [exact release_build_translates|]. split; [exact Hinit|].
  exact (@free_once_after_init_then_repeats release_build _ _ _ _
           release_build_translates Hinit).
Defined.

Lemma free_twice_closes_twice :
  let w0 := @after_init release_build quiet_world in
  let w1 := final (@process_free release_build initialised w0) in
  let o2 := @process_free release_build initialised w1 in
  result o2 = Some PROCESS_INVALID_HANDLE ∧
  since (length (trace w0)) (final o2) =
    [ev_SetLastError 0; ev_CloseHandle 8 true; ev_CloseHandle 12 true;
     ev_CloseHandle 20 true; ev_GetLastError 0;
     ev_SetLastError 0; ev_CloseHandle 8 false; ev_CloseHandle 12 false;
     ev_CloseHandle 20 false; ev_GetLastError 6].
Proof. vm_compute. split; reflexivity. Qed.

Lemma free_after_init_leaves_child_endpoints_open_witness :
  @translates_success release_build ∧
  @process_init release_build blank quiet_world =
    Returned (PROCESS_SUCCESS, initialised) (@after_init release_build quiet_world) ∧
  ∃ w1,
    @process_free release_build initialised (@after_init release_build quiet_world)
      = Returned PROCESS_SUCCESS w1 ∧
    object <$> handles w1 !! child_stdin initialised = Some (PipeEnd ReadEnd) ∧
    object <$> handles w1 !! child_stdout initialised = Some (PipeEnd WriteEnd) ∧
    object <$> handles w1 !! child_stderr initialised = Some (PipeEnd WriteEnd).
Proof.
  assert (@process_init release_build blank quiet_world =
            Returned (PROCESS_SUCCESS, initialised)
              (@after_init release_build quiet_world)) as Hinit
    by (vm_compute; reflexivity).
  split; [exact release_build_translates|]. split; [exact Hinit|].
  exact (@free_after_init_leaves_child_endpoints_open release_build _ _ _ _
           release_build_translates Hinit).
Defined.

Lemma second_start_stopped_by_assert_only_witness :
  @translates_success debug_build ∧
  @process_start debug_build initialised 1 argv_cmd (@after_init debug_build quiet_world)
    = Returned (PROCESS_SUCCESS, running) (@after_start debug_build quiet_world) ∧
  @process_start debug_build running 1 argv_cmd (@after_start debug_build quiet_world)
    = Aborted (@after_start debug_build quiet_world).
Proof.
  assert (@process_start debug_build initialised 1 argv_cmd
            (@after_init debug_build quiet_world)
          = Returned (PROCESS_SUCCESS, running)
              (@after_start debug_build quiet_world)) as Hstart
    by (vm_compute; reflexivity).
  split; [exact debug_build_translates|]. split; [exact Hstart|].
  exact (@second_start_stopped_by_assert_only debug_build _ _ _ _ _ _ 1 argv_cmd
           debug_build_translates Hstart).
Defined.

Lemma second_start_not_rejected :
  @process_start debug_build running 1 argv_cmd (@after_start debug_build quiet_world)
    = Aborted (@after_start debug_build quiet_world) ∧
  let w1 := @after_start release_build quiet_world in
  let o := @process_start release_build running 1 argv_cmd w1 in
  result o =
    Some (PROCESS_INVALID_HANDLE,
          set_info {| hProcess := 32; hThread := 36;
                      dwProcessId := 8; dwThreadId := 10 |} running) ∧
  since (length (trace w1)) (final o) =
    [ev_SetLastError 0;
     ev_CreateProcessW [99; 109; 100] CREATE_NEW_PROCESS_GROUP
       (start_info running) true;
     ev_free; ev_free; ev_GetLastError 0;
     ev_CloseHandle 4 false; ev_CloseHandle 16 false; ev_CloseHandle 24 false;
     ev_CloseHandle 36 true; ev_GetLastError 6] ∧
  (map_to_list (children w1)).*1 = [4] ∧
  (map_to_list (children (final o))).*1 = [8; 4].
Proof. vm_compute. repeat split; reflexivity. Qed.

Lemma errors_read_at_once_except_start_and_free_witness :
  @translates_success release_build ∧
  match @process_start release_build initialised 1 argv_cmd
          (@after_init release_build barren_world) with
  | Returned (err, p') w' =>
      ∃ b1 b2 b3 b4,
        since (length (trace (@after_init release_build barren_world))) w' =
          [ev_SetLastError 0;
           ev_CreateProcessW (@start_command release_build 1 argv_cmd)
             (@CREATION_FLAGS) (start_info initialised) false;
           ev_free; ev_free; ev_GetLastError 2;
           ev_CloseHandle (child_stdin initialised) b1;
           ev_CloseHandle (child_stdout initialised) b2;
           ev_CloseHandle (child_stderr initialised) b3;
           ev_CloseHandle (hThread (info p')) b4] ∧
        err = @system_error_to_process_error release_build 2
  | Aborted w' => @NDEBUG release_build = false ∧
                  w' = @after_init release_build barren_world
  | Blocked _ => False
  end.
Proof.
  split; [exact release_build_translates|].
  destruct (@errors_read_at_once_except_start_and_free release_build
              initialised 1 argv_cmd 0 (@after_init release_build barren_world)
              release_build_translates) as (_ & _ & _ & _ & Hstart & _).
  exact Hstart.
Defined.

Lemma failed_start_error_not_read_at_once :
  let w0 := @after_init release_build barren_world in
  let o := @process_start release_build initialised 1 argv_cmd w0 in
  result o = Some (PROCESS_UNKNOWN_ERROR, initialised) ∧
  since (length (trace w0)) (final o) =
    [ev_SetLastError 0;
     ev_CreateProcessW [99; 109; 100] CREATE_NEW_PROCESS_GROUP
       (start_info initialised) false;
     ev_free; ev_free; ev_GetLastError 2;
     ev_CloseHandle 4 true; ev_CloseHandle 16 true; ev_CloseHandle 24 true;
     ev_CloseHandle 0 false] ∧
  observed_at_once (since (length (trace w0)) (final o)) = false ∧
  last_error (final o) = ERROR_INVALID_HANDLE ∧
  least_translation (last_error (final o)) = PROCESS_INVALID_HANDLE.
Proof. vm_compute. repeat split; reflexivity. Qed.

Lemma running_is_started :
  started running (@after_start release_build quiet_world).
Proof.
  split; [done|]. split; [done|]. split.
  - exists false. vm_compute. reflexivity.
  - exists {| group := 4; exit_time := None; break_delay := None |}.
    split; vm_compute; reflexivity.
Defined.

Lemma terminate_signals_group_then_waits_witness :
  started running (@after_start release_build quiet_world) ∧
  ∃ w',
    @process_terminate release_build running 100 (@after_start release_build quiet_world)
      = Returned PROCESS_WAIT_TIMEOUT w' ∧
    now w' = 100 ∧
    since (length (trace (@after_start release_build quiet_world))) w' =
      [ev_SetLastError 0; ev_GenerateConsoleCtrlEvent CTRL_BREAK_EVENT 4 true;
       ev_SetLastError 0; ev_WaitForSingleObject 28 100 WAIT_TIMEOUT].
Proof.
  split; [exact running_is_started|].
  destruct (@terminate_signals_group_then_waits release_build running 100
              (@after_start release_build quiet_world) running_is_started)
    as (_ & _ & Hto & _).
  destruct (Hto eq_refl {| group := 4; exit_time := None; break_delay := None |})
    as (w' & Hw & Hn & Ht).
  - vm_compute. reflexivity.
  - reflexivity.
  - intros t Ht. discriminate Ht.
  - lia.
  - unfold INFINITE. lia.
  - exists w'. split; [exact Hw|]. split; [exact Hn|].
    unfold since. rewrite Ht. apply drop_app_length.
Defined.

Lemma terminate_infinite_does_not_time_out :
  let w := @after_start release_build quiet_world in
  let o := @process_terminate release_build running INFINITE w in
  child_of running w =
    Some {| group := 4; exit_time := None; break_delay := None |} ∧
  blocked o = true ∧
  result o = None ∧
  since (length (trace w)) (final o) =
    [ev_SetLastError 0; ev_GenerateConsoleCtrlEvent CTRL_BREAK_EVENT 4 true;
     ev_SetLastError 0] ∧
  blocked (@process_terminate debug_build running INFINITE
             (@after_start debug_build quiet_world)) = true.
Proof. vm_compute. repeat split; reflexivity. Qed.

Lemma wait_zero_polls_witness :
  let w := @after_start release_build quiet_world in
  let c := {| group := 4; exit_time := None; break_delay := None |} in
  started running w ∧ child_of running w = Some c ∧ exited c (now w) = false ∧
  ∃ w',
    @process_wait release_build running 0 w = Returned PROCESS_WAIT_TIMEOUT w' ∧
    now w' = now w ∧
    trace w' = trace w ++
      [ev_SetLastError 0;
       ev_WaitForSingleObject (hProcess (info running)) 0 WAIT_TIMEOUT].
Proof.
  intros w c.
  assert (child_of running w = Some c) as Hc by (vm_compute; reflexivity).
  split; [exact running_is_started|]. split; [exact Hc|]. split; [reflexivity|].
  exact (@wait_zero_polls release_build running w c running_is_started Hc eq_refl).
Defined.

Lemma creation_error_has_priority_witness :
  @translates_success release_build ∧
  ∃ b1 b2 b3 b4 pre post w',
    @process_start release_build initialised 1 argv_cmd
      (@after_init release_build barren_world)
      = Returned (PROCESS_UNKNOWN_ERROR, initialised) w' ∧
    trace w' = trace (@after_init release_build barren_world) ++ pre ++
      [ev_CloseHandle 4 b1; ev_CloseHandle 16 b2; ev_CloseHandle 24 b3;
       ev_CloseHandle 0 b4] ++ post ∧
    last_error w' = (if b1 && b2 && b3 && b4 then 2 else ERROR_INVALID_HANDLE).
Proof.
  split; [exact release_build_translates|].
  pose proof (@creation_error_has_priority release_build initialised 1 argv_cmd
                (@after_init release_build barren_world)
                release_build_translates) as Hp.
  destruct (@process_start release_build initialised 1 argv_cmd
              (@after_init release_build barren_world))
    as [[err p'] w'|w'|w'] eqn:Hrun.
  - destruct Hp as (b1 & b2 & b3 & b4 & pre & post & Ht & Hm).
    change (spawn_fate (@after_init release_build barren_world) 0%nat)
      with (@inl positive behaviour 2%positive) in Hm.
    destruct Hm as (He & _ & Hl).
    assert (p' = initialised) as ->.
    { revert Hrun. vm_compute. intros [= _ <-]. reflexivity. }
    exists b1, b2, b3, b4, pre, post, w'.
    split; [by rewrite He|]. split; [|exact Hl].
    revert Ht. vm_compute. intros ->. reflexivity.
  - destruct Hp as [Hp _]. discriminate Hp.
  - destruct Hp.
Defined.

Lemma wait_has_three_outcomes_witness :
  WAIT_ABANDONED ≠ WAIT_TIMEOUT ∧ WAIT_ABANDONED ≠ WAIT_FAILED ∧
  @wait_result_to_error release_build WAIT_ABANDONED quiet_world =
    Returned PROCESS_SUCCESS quiet_world.
Proof.
  assert (WAIT_ABANDONED ≠ WAIT_TIMEOUT) as H1 by done.
  assert (WAIT_ABANDONED ≠ WAIT_FAILED) as H2 by done.
  split; [exact H1|]. split; [exact H2|].
  exact (proj1 (@wait_has_three_outcomes release_build blank 0 quiet_world)
           WAIT_ABANDONED quiet_world H1 H2).
Defined.

(** A few more runs, to see the model at work: a signal that the system
    refuses, a kill, and a child that exits on CTRL-BREAK within the
    timeout. *)

Example terminate_refused :
  let w := @after_start release_build deaf_world in
  let o := @process_terminate release_build running 100 w in
  result o = Some PROCESS_UNKNOWN_ERROR ∧
  since (length (trace w)) (final o) =
    [ev_SetLastError 0; ev_GenerateConsoleCtrlEvent CTRL_BREAK_EVENT 4 false;
     ev_GetLastError ERROR_ACCESS_DENIED].
Proof. vm_compute. split; reflexivity. Qed.

Example kill_then_wait :
  let w := @after_start release_build quiet_world in
  let o := @process_kill release_build running 50 w in
  result o = Some PROCESS_SUCCESS ∧ now (final o) = 0 ∧
  since (length (trace w)) (final o) =
    [ev_SetLastError 0; ev_TerminateProcess 28 true;
     ev_SetLastError 0; ev_WaitForSingleObject 28 50 WAIT_OBJECT_0].
Proof. vm_compute. repeat split; reflexivity. Qed.

Example terminate_obeyed :
  let w0 :=
    {| handles := ∅; children := ∅; last_error := 0; now := 0; trace := [];
       pipe_fate := λ _, None;
       spawn_fate := λ _, inr {| lifetime := None; on_break := Some 30 |};
       signal_fate := λ _, None |} in
  let w := @after_start release_build w0 in
  let o := @process_terminate release_build running 100 w in
  result o = Some PROCESS_SUCCESS ∧ now (final o) = 30.
Proof. vm_compute. split; reflexivity. Qed.

Example debug_start_wants_argv_argc :
  @process_start debug_build initialised 1 [Some "cmd"; None]%string
    (@after_init debug_build quiet_world)
  = Aborted (@after_init debug_build quiet_world).
Proof. vm_compute. reflexivity. Qed.

(** * Runs for the life of a handle *)

Lemma init_on_quiet_world :
  @process_init release_build blank quiet_world =
    Returned (PROCESS_SUCCESS, initialised) (@after_init release_build quiet_world).
Proof. vm_compute. reflexivity. Qed.

Lemma start_on_quiet_world :
  @process_start release_build initialised 1 argv_cmd
    (@after_init release_build quiet_world) =
    Returned (PROCESS_SUCCESS, running) (@after_start release_build quiet_world).
Proof. vm_compute. reflexivity. Qed.

Lemma init_on_barren_world :
  @process_init release_build blank barren_world =
    Returned (PROCESS_SUCCESS, initialised) (@after_init release_build barren_world).
Proof. vm_compute. reflexivity. Qed.

Lemma start_on_barren_world :
  @process_start release_build initialised 1 argv_cmd
    (@after_init release_build barren_world) =
    Returned (PROCESS_UNKNOWN_ERROR, initialised)
      (@after_start release_build barren_world).
Proof. vm_compute. reflexivity. Qed.

Lemma running_has_exited :
  started running (@after_start release_build brief_world).
Proof.
  split; [done|]. split; [done|]. split.
  - exists false. vm_compute. reflexivity.
  - exists {| group := 4; exit_time := Some 0; break_delay := None |}.
    split; vm_compute; reflexivity.
Qed.

Lemma init_reports_first_refusal_witness :
  (1 < 3)%nat ∧
  pipe_fate stingy_world 1%nat = Some 4%positive ∧
  (∀ k, (k < 1)%nat → pipe_fate stingy_world k = None) ∧
  ∃ w',
    @process_init release_build blank stingy_world =
      Returned (@system_error_to_process_error release_build 4,
                partly_initialised 1 (fresh_key (handles stingy_world))) w' ∧
    last_error w' = 4 ∧
    trace w' = trace stingy_world ++ ev_SetLastError 0 ::
      replicate 1 (ev_CreatePipe true) ++
      [ev_CreatePipe false; ev_GetLastError 4] ∧
    size (handles w') = (size (handles stingy_world) + 2 * 1)%nat ∧
    children w' = children stingy_world.
Proof.
  assert ((1 < 3)%nat) as H1 by lia.
  assert (∀ k, (k < 1)%nat → pipe_fate stingy_world k = None) as H3.
  { intros [|k] Hk; [reflexivity|lia]. }
  split; [exact H1|]. split; [reflexivity|]. split; [exact H3|].
  exact (@init_reports_first_refusal release_build blank stingy_world
           4%positive 1%nat H1 eq_refl H3).
Defined.

Lemma init_marks_parent_ends_private_witness :
  @translates_success release_build ∧
  @process_init release_build blank quiet_world =
    Returned (PROCESS_SUCCESS, initialised) (@after_init release_build quiet_world) ∧
  Forall (λ h, inheritable <$> handles (@after_init release_build quiet_world) !! h
                 = Some false)
         [stdin initialised; stdout initialised; stderr initialised] ∧
  Forall (λ h, inheritable <$> handles (@after_init release_build quiet_world) !! h
                 = Some true)
         [child_stdin initialised; child_stdout initialised;
          child_stderr initialised].
Proof.
  split; [exact release_build_translates|]. split; [exact init_on_quiet_world|].
  exact (@init_marks_parent_ends_private release_build _ _ _ _
           release_build_translates init_on_quiet_world).
Defined.

Lemma start_after_init_keeps_parent_endpoints_witness :
  let w0 := quiet_world in
  let w1 := @after_init release_build quiet_world in
  let w2 := @after_start release_build quiet_world in
  @translates_success release_build ∧
  handles w0 !! NULL = None ∧
  @process_init release_build blank w0 = Returned (PROCESS_SUCCESS, initialised) w1 ∧
  @process_start release_build initialised 1 argv_cmd w1 =
    Returned (PROCESS_SUCCESS, running) w2 ∧
  (stdin running, stdout running, stderr running) =
    (stdin initialised, stdout initialised, stderr initialised) ∧
  handles w2 !! stdin initialised = handles w1 !! stdin initialised ∧
  handles w2 !! stdout initialised = handles w1 !! stdout initialised ∧
  handles w2 !! stderr initialised = handles w1 !! stderr initialised ∧
  Forall (λ h, is_Some (handles w2 !! h))
    [stdin initialised; stdout initialised; stderr initialised] ∧
  handles w2 !! hThread (info running) = None ∧
  (if created w1
   then PROCESS_SUCCESS = PROCESS_SUCCESS ∧ started running w2 ∧
        children w0 !! dwProcessId (info running) = None
   else PROCESS_SUCCESS ≠ PROCESS_SUCCESS ∧ info running = zero_info ∧
        children w2 = children w0).
Proof.
  intros w0 w1 w2.
  assert (handles w0 !! NULL = None) as Hnull by reflexivity.
  split; [exact release_build_translates|]. split; [exact Hnull|].
  split; [exact init_on_quiet_world|]. split; [exact start_on_quiet_world|].
  exact (@start_after_init_keeps_parent_endpoints release_build _ _ _ _ _ _ _ _ _
           release_build_translates Hnull init_on_quiet_world
           start_on_quiet_world).
Defined.

Lemma free_skips_null_fields_witness :
  let w := @after_init release_build quiet_world in
  let refs := filter (λ h, h ≠ NULL)
                [stdin initialised; stdout initialised; stderr initialised;
                 hProcess (info initialised)] in
  refs = [8; 12; 20] ∧
  NoDup refs ∧
  Forall (λ h, is_Some (handles w !! h)) refs ∧
  ∃ w',
    @process_free release_build initialised w =
      Returned (@system_error_to_process_error release_build 0) w' ∧
    trace w' = trace w ++
      ev_SetLastError 0 :: ((λ h, ev_CloseHandle h true) <$> refs) ++
      [ev_GetLastError 0].
Proof.
  intros w refs.
  assert (NoDup refs) as Hnd.
  { apply (bool_decide_unpack _). vm_compute. exact I. }
  assert (Forall (λ h, is_Some (handles w !! h)) refs) as Hopen.
  { apply (bool_decide_unpack _). vm_compute. exact I. }
  split; [reflexivity|]. split; [exact Hnd|]. split; [exact Hopen|].
  exact (@free_skips_null_fields release_build initialised w Hnd Hopen).
Defined.

Lemma free_after_failed_init_succeeds_witness :
  @translates_success release_build ∧
  @process_init release_build blank stingy_world =
    Returned (PROCESS_UNKNOWN_ERROR, partly_initialised 1 4)
      (@after_init release_build stingy_world) ∧
  PROCESS_UNKNOWN_ERROR ≠ PROCESS_SUCCESS ∧
  ∃ w2,
    @process_free release_build (partly_initialised 1 4)
      (@after_init release_build stingy_world) = Returned PROCESS_SUCCESS w2 ∧
    Forall (λ ev, failing ev = false)
      (since (length (trace (@after_init release_build stingy_world))) w2) ∧
    (stdin (partly_initialised 1 4) ≠ NULL →
     handles w2 !! stdin (partly_initialised 1 4) = None) ∧
    (stdout (partly_initialised 1 4) ≠ NULL →
     handles w2 !! stdout (partly_initialised 1 4) = None) ∧
    stderr (partly_initialised 1 4) = NULL ∧
    hProcess (info (partly_initialised 1 4)) = NULL.
Proof.
  assert (@process_init release_build blank stingy_world =
            Returned (PROCESS_UNKNOWN_ERROR, partly_initialised 1 4)
              (@after_init release_build stingy_world)) as Hinit
    by (vm_compute; reflexivity).
  assert (PROCESS_UNKNOWN_ERROR ≠ PROCESS_SUCCESS) as Herr by discriminate.
  split; [exact release_build_translates|]. split; [exact Hinit|].
  split; [exact Herr|].
  exact (@free_after_failed_init_succeeds release_build _ _ _ _ _
           release_build_translates Hinit Herr).
Defined.

Lemma init_start_free_restores_handle_table_witness :
  @translates_success release_build ∧
  handles quiet_world !! NULL = None ∧
  @process_init release_build blank quiet_world =
    Returned (PROCESS_SUCCESS, initialised) (@after_init release_build quiet_world) ∧
  @process_start release_build initialised 1 argv_cmd
    (@after_init release_build quiet_world) =
    Returned (PROCESS_SUCCESS, running) (@after_start release_build quiet_world) ∧
  ∃ w3,
    @process_free release_build running (@after_start release_build quiet_world)
      = Returned PROCESS_SUCCESS w3 ∧
    handles w3 = handles quiet_world.
Proof.
  assert (handles quiet_world !! NULL = None) as Hnull by reflexivity.
  split; [exact release_build_translates|]. split; [exact Hnull|].
  split; [exact init_on_quiet_world|]. split; [exact start_on_quiet_world|].
  exact (@init_start_free_restores_handle_table release_build _ _ _ _ _ _ _ _ _
           release_build_translates Hnull init_on_quiet_world
           start_on_quiet_world).
Defined.

Lemma system_error_after_failed_start_witness :
  @translates_success release_build ∧
  handles barren_world !! NULL = None ∧
  @process_init release_build blank barren_world =
    Returned (PROCESS_SUCCESS, initialised) (@after_init release_build barren_world) ∧
  spawn_fate (@after_init release_build barren_world) 0%nat = inl 2%positive ∧
  @process_start release_build initialised 1 argv_cmd
    (@after_init release_build barren_world) =
    Returned (PROCESS_UNKNOWN_ERROR, initialised)
      (@after_start release_build barren_world) ∧
  PROCESS_UNKNOWN_ERROR = @system_error_to_process_error release_build 2 ∧
  ∃ w3,
    process_system_error (@after_start release_build barren_world) =
      Returned ERROR_INVALID_HANDLE w3.
Proof.
  assert (handles barren_world !! NULL = None) as Hnull by reflexivity.
  split; [exact release_build_translates|]. split; [exact Hnull|].
  split; [exact init_on_barren_world|]. split; [reflexivity|].
  split; [exact start_on_barren_world|].
  exact (@system_error_after_failed_start release_build _ _ _ _ _ _ _ _ _
           2%positive release_build_translates Hnull init_on_barren_world
           eq_refl start_on_barren_world).
Defined.

Lemma wait_on_exited_child_returns_at_once_witness :
  let w := @after_start release_build brief_world in
  let c := {| group := 4; exit_time := Some 0; break_delay := None |} in
  started running w ∧ child_of running w = Some c ∧ exited c (now w) = true ∧
  ∃ w',
    @process_wait release_build running INFINITE w = Returned PROCESS_SUCCESS w' ∧
    now w' = now w ∧
    trace w' = trace w ++
      [ev_SetLastError 0;
       ev_WaitForSingleObject (hProcess (info running)) INFINITE WAIT_OBJECT_0].
Proof.
  intros w c.
  assert (child_of running w = Some c) as Hc by (vm_compute; reflexivity).
  split; [exact running_has_exited|]. split; [exact Hc|]. split; [reflexivity|].
  exact (@wait_on_exited_child_returns_at_once release_build running INFINITE w c
           running_has_exited Hc eq_refl).
Defined.

Lemma wait_on_closed_reference_fails_witness :
  let w := @after_free release_build quiet_world in
  hProcess (info running) ≠ NULL ∧
  handles w !! hProcess (info running) = None ∧
  ∃ w',
    @process_wait release_build running 0 w =
      Returned (@system_error_to_process_error release_build ERROR_INVALID_HANDLE) w' ∧
    trace w' = trace w ++
      [ev_SetLastError 0;
       ev_WaitForSingleObject (hProcess (info running)) 0 WAIT_FAILED;
       ev_GetLastError ERROR_INVALID_HANDLE] ∧
    now w' = now w ∧ children w' = children w ∧ handles w' = handles w.
Proof.
  intros w.
  assert (hProcess (info running) ≠ NULL) as Hhp by discriminate.
  assert (handles w !! hProcess (info running) = None) as Hh
    by (vm_compute; reflexivity).
  split; [exact Hhp|]. split; [exact Hh|].
  exact (@wait_on_closed_reference_fails release_build running 0 w Hhp Hh).
Defined.

Lemma finite_wait_is_bounded_witness :
  let w := @after_start release_build quiet_world in
  0 ≤ 100 ∧ 100 ≠ INFINITE ∧
  match @process_wait release_build running 100 w with
  | Returned _ w' => now w ≤ now w' ≤ now w + 100
  | Aborted w' =>
      @NDEBUG release_build = false ∧ hProcess (info running) = NULL ∧ w' = w
  | Blocked _ => False
  end.
Proof.
  intros w.
  assert (0 ≤ 100) as Hms by lia.
  assert (100 ≠ INFINITE) as Hinf by discriminate.
  split; [exact Hms|]. split; [exact Hinf|].
  exact (@finite_wait_is_bounded release_build running 100 w Hms Hinf).
Defined.


Lemma kill_exited_child_is_refused_witness :
  let w := @after_start release_build brief_world in
  let c := {| group := 4; exit_time := Some 0; break_delay := None |} in
  started running w ∧ child_of running w = Some c ∧ exited c (now w) = true ∧
  ∃ w',
    @process_kill release_build running 50 w =
      Returned (@system_error_to_process_error release_build ERROR_ACCESS_DENIED) w' ∧
    trace w' = trace w ++
      [ev_SetLastError 0; ev_TerminateProcess (hProcess (info running)) false;
       ev_GetLastError ERROR_ACCESS_DENIED] ∧
    children w' = children w ∧ now w' = now w.
Proof.
  intros w c.
  assert (child_of running w = Some c) as Hc by (vm_compute; reflexivity).
  split; [exact running_has_exited|]. split; [exact Hc|]. split; [reflexivity|].
  exact (@kill_exited_child_is_refused release_build running 50 w c
           running_has_exited Hc eq_refl).
Defined.

